(** * Diff engine and value-tree renderer of the trace viewer

    A shallow embedding of the diff view component (value normaliser, line
    diff engine, split projection) and of the JSON tree view component
    (collapsible tree renderer), with the properties the specification
    states about them.

    Strings are sequences of code units; the components only compare them,
    order them, split them at the line feed and concatenate them. Numbers
    that count (table entries, indices, depths) are integers. The numbers
    inside a JSON value are kept abstract, with their printing function. *)

From Equations Require Import Equations.
From stdpp Require Import base list strings sorting pretty.
From Stdlib Require Import ZArith Lia.

Set Warnings "-register-all".

Open Scope string_scope.
Open Scope list_scope.
Open Scope nat_scope.

(** ** Lines *)

Module Lines.

(** The line-feed code unit, the separator of [text.split("\n")]. *)
Definition newline : Ascii.ascii := Ascii.ascii_of_nat 10.

(** [String.prototype.split] with the one-character separator ["\n"] and no
    limit: the pieces between consecutive separators, so the empty text gives
    one empty line and a trailing separator gives a trailing empty line. *)
Fixpoint split (s : string) : list string :=
  match s with
  | EmptyString => [""]
  | String c s' =>
      if decide (c = newline) then "" :: split s'
      else match split s' with
           | [] => [String c ""]
           | l :: ls => String c l :: ls
           end
  end.

End Lines.

(** ** Line diff engine *)

Module Diff.

(** [type Op]: the three tagged variants of an edit operation. *)
Inductive Op : Type :=
| OpContext (left right : string)
| OpDel (left : string)
| OpAdd (right : string).

#[global] Instance Op_eq_dec : EqDecision Op.
Proof. solve_decision. Defined.

(** [x >= y] on the numbers of the table. *)
#[global] Instance nat_ge_dec : RelDecision ge := λ x y, decide (y ≤ x).

(** The table is an array of rows of numbers; the numbers are lengths, so
    they are modelled by [nat]. *)
Abbreviation table := (list (list nat)).

(** [Array.from({length: m + 1}, () => Array.from({length: n + 1}, () => 0))] *)
Definition init_table (m n : nat) : table := replicate (m + 1) (replicate (n + 1) 0).

(** [lcs[i][j]]. Every index the loops use is within the table; outside it
    [!!!] reads a default and the store below does nothing. *)
Definition get (t : table) (i j : nat) : nat := (t !!! i) !!! j.

(** [lcs[i][j] = v], an in-place store into row [i]. *)
Definition set (t : table) (i j v : nat) : table := <[i := <[j := v]> (t !!! i)]> t.

Section Engine.
Variables a b : list string.

(** The body of the inner loop: the value stored at [lcs[i][j]]. *)
Definition cell (t : table) (i j : nat) : nat :=
  if decide (a !!! i = b !!! j) then get t (i + 1) (j + 1) + 1
  else Nat.max (get t (i + 1) j) (get t i (j + 1)).

(** [for (let j = n - 1; j >= 0; j--) ...]: [k] is [j + 1], the number of
    columns still to fill in row [i]. *)
Fixpoint fill_row (i k : nat) (t : table) : table :=
  match k with
  | 0 => t
  | S j => fill_row i j (set t i j (cell t i j))
  end.

(** [for (let i = m - 1; i >= 0; i--) ...]: [k] is [i + 1]. *)
Fixpoint fill_rows (n k : nat) (t : table) : table :=
  match k with
  | 0 => t
  | S i => fill_rows n i (fill_row i n t)
  end.

Definition build_table : table :=
  fill_rows (length b) (length a) (init_table (length a) (length b)).

(** The state of the three [while] loops: the two cursors and [ops]. *)
Definition walk_state : Type := nat * nat * list Op.

(** [while (i < m && j < n) { ... }] *)
Equations? walk (lcs : table) (i j : nat) (ops : list Op) : walk_state
  by wf ((length a - i) + (length b - j)) lt :=
walk lcs i j ops with decide (i < length a ∧ j < length b) => {
  | right _ => (i, j, ops)
  | left _ with decide (a !!! i = b !!! j) => {
    | left _ => walk lcs (i + 1) (j + 1) (ops ++ [OpContext (a !!! i) (b !!! j)])
    | right _ with decide (get lcs (i + 1) j ≥ get lcs i (j + 1)) => {
      | left _ => walk lcs (i + 1) j (ops ++ [OpDel (a !!! i)])
      | right _ => walk lcs i (j + 1) (ops ++ [OpAdd (b !!! j)]) } } }.
Proof. all: lia. Qed.

(** [while (i < m) ops.push({type: "del", left: a[i++]})] *)
Equations? drain_left (i : nat) (ops : list Op) : nat * list Op
  by wf (length a - i) lt :=
drain_left i ops with decide (i < length a) => {
  | right _ => (i, ops)
  | left _ => drain_left (i + 1) (ops ++ [OpDel (a !!! i)]) }.
Proof. lia. Qed.

(** [while (j < n) ops.push({type: "add", right: b[j++]})] *)
Equations? drain_right (j : nat) (ops : list Op) : nat * list Op
  by wf (length b - j) lt :=
drain_right j ops with decide (j < length b) => {
  | right _ => (j, ops)
  | left _ => drain_right (j + 1) (ops ++ [OpAdd (b !!! j)]) }.
Proof. lia. Qed.

(** The part of [computeOps] after the two [split] calls. *)
Definition diff_lines : list Op :=
  let lcs := build_table in
  let '(i, j, ops) := walk lcs 0 0 [] in
  let '(_, ops) := drain_left i ops in
  let '(_, ops) := drain_right j ops in
  ops.
End Engine.

(** [computeOps(leftText, rightText)] *)
Definition computeOps (leftText rightText : string) : list Op :=
  diff_lines (Lines.split leftText) (Lines.split rightText).

(** *** Replaying and measuring an edit script *)

(** The right line an op contributes when the script is replayed: context
    ops keep their right line, deletes drop theirs, inserts emit theirs. *)
Definition right_lines (op : Op) : list string :=
  match op with
  | OpContext _ r => [r]
  | OpDel _ => []
  | OpAdd r => [r]
  end.

(** The left line an op consumes: context ops and deletes carry one. *)
Definition left_lines (op : Op) : list string :=
  match op with
  | OpContext l _ => [l]
  | OpDel l => [l]
  | OpAdd _ => []
  end.

Definition replay_right (ops : list Op) : list string := ops ≫= right_lines.
Definition replay_left (ops : list Op) : list string := ops ≫= left_lines.

(** A context op is well formed when its two lines are the same line. *)
Definition context_ok (op : Op) : Prop :=
  match op with
  | OpContext l r => l = r
  | _ => True
  end.

(** An edit script from [a] to [b]. *)
Definition valid_script (a b : list string) (ops : list Op) : Prop :=
  replay_left ops = a ∧ replay_right ops = b ∧ Forall context_ok ops.

(** [o.type !== "context"] *)
Definition is_change (op : Op) : bool :=
  match op with
  | OpContext _ _ => false
  | _ => true
  end.

Definition contexts (ops : list Op) : nat := length (filter (λ op, is_change op = false) ops).
Definition changes (ops : list Op) : nat := length (filter (λ op, is_change op = true) ops).

(** *** The walk as the specification words it

    [lcs_len a b] is the length of a longest common subsequence of [a] and
    [b], by the recurrence of the specification on the two suffixes. *)
Fixpoint lcs_len (a b : list string) : nat :=
  match a with
  | [] => 0
  | x :: a' =>
      (fix inner (b : list string) : nat :=
         match b with
         | [] => 0
         | y :: b' =>
             if decide (x = y) then lcs_len a' b' + 1
             else Nat.max (lcs_len a' b) (inner b')
         end) b
  end.

(** The specification's forward walk on the remaining suffixes: context on
    equal heads, else a delete when [lcs[i+1][j] >= lcs[i][j+1]], else an
    insert; when one side is exhausted, the rest of [a] as deletes and then
    the rest of [b] as inserts. *)
Fixpoint spec_walk (a b : list string) : list Op :=
  match a with
  | [] => OpAdd <$> b
  | x :: a' =>
      (fix inner (b : list string) : list Op :=
         match b with
         | [] => OpDel <$> (x :: a')
         | y :: b' =>
             if decide (x = y) then OpContext x y :: spec_walk a' b'
             else if decide (lcs_len a' b ≥ lcs_len (x :: a') b')
                  then OpDel x :: spec_walk a' b
                  else OpAdd y :: inner b'
         end) b
  end.

(** [k] is the length of a longest common subsequence of [a] and [b]. *)
Definition is_lcs_length (a b : list string) (k : nat) : Prop :=
  (∃ s, s `sublist_of` a ∧ s `sublist_of` b ∧ length s = k) ∧
  (∀ s, s `sublist_of` a → s `sublist_of` b → length s ≤ k).

(** *** Invariants of the table loops *)

Section TableInv.
Variables a b : list string.
Let m := length a.
Let n := length b.

(** The table keeps its [(m+1) × (n+1)] shape. *)
Definition shape (t : table) : Prop :=
  length t = m + 1 ∧ ∀ i, i ≤ m → length (t !!! i) = n + 1.

(** Cell [(i, j)] holds the LCS length of the suffixes [a[i:]] and [b[j:]]. *)
Definition done_at (t : table) (i j : nat) : Prop :=
  get t i j = lcs_len (drop i a) (drop j b).

(** Rows [k..m] are filled; the rows above still end in their initial 0. *)
Definition rows_inv (t : table) (k : nat) : Prop :=
  shape t ∧
  (∀ i j, k ≤ i ≤ m → j ≤ n → done_at t i j) ∧
  (∀ i, i < k → get t i n = 0).

(** Inside row [i]: columns [k..n] of it are filled as well. *)
Definition row_inv (t : table) (i k : nat) : Prop :=
  shape t ∧
  (∀ i' j, i' ≤ m → j ≤ n → i < i' ∨ (i' = i ∧ k ≤ j) → done_at t i' j) ∧
  (∀ i', i' < i → get t i' n = 0).

(** What follows the first loop in [computeOps]. *)
Definition finish (st : walk_state) : list Op :=
  let '(i, j, ops) := st in
  (drain_right b j (drain_left a i ops).2).2.
End TableInv.

(** The lines of the context ops of a script. *)
Definition context_lines (ops : list Op) : list string :=
  ops ≫= λ op, match op with OpContext l _ => [l] | _ => [] end.

End Diff.

(** ** Diff projector *)

Module Split.
Import Diff.

(** The [type] tag of a row. *)
Inductive RowType : Type := RContext | RAdd | RDel | RChange.

#[global] Instance RowType_eq_dec : EqDecision RowType.
Proof. solve_decision. Defined.

(** [type Row = { type; left?: string; right?: string }]: the two texts are
    optional fields, [None] standing for an absent field. *)
Module Row.
Record t : Type := mk { type : RowType; left : option string; right : option string }.
End Row.

#[global] Instance Row_eq_dec : EqDecision Row.t.
Proof. solve_decision. Defined.

(** Truthiness of a [string | undefined]: absent and empty are both falsy. *)
Definition truthy (s : option string) : bool :=
  match s with
  | Some s => bool_decide (s ≠ "")
  | None => false
  end.

(** [prev.type === "del" && !prev.right] *)
Definition open_del (prev : Row.t) : bool :=
  bool_decide (Row.type prev = RDel) && negb (truthy (Row.right prev)).

(** [prev.type = "change"; prev.right = right], a store into the row object
    that is the last element of [rows]. *)
Definition promote (prev : Row.t) (right : string) : Row.t :=
  Row.mk RChange (Row.left prev) (Some right).

(** One iteration of [for (const op of ops)]. [last rows] is
    [rows[rows.length - 1]], which is [undefined] on the empty array. *)
Definition push_op (rows : list Row.t) (op : Op) : list Row.t :=
  match op with
  | OpContext l r => rows ++ [Row.mk RContext (Some l) (Some r)]
  | OpDel l => rows ++ [Row.mk RDel (Some l) (Some "")]
  | OpAdd r =>
      match last rows with
      | Some prev =>
          if open_del prev then <[pred (length rows) := promote prev r]> rows
          else rows ++ [Row.mk RAdd (Some "") (Some r)]
      | None => rows ++ [Row.mk RAdd (Some "") (Some r)]
      end
  end.

(** [opsToSplitRows(ops)] *)
Definition opsToSplitRows (ops : list Op) : list Row.t := foldl push_op [] ops.

(** The unified view: the text of the [<pre>] of each op. *)
Definition unified_line (o : Op) : string :=
  match o with
  | OpAdd r => "+ " +:+ r
  | OpDel l => "- " +:+ l
  | OpContext l _ => "  " +:+ l
  end.

(** [ops.some((o) => o.type !== "context")] *)
Definition hasChanges (ops : list Op) : bool := existsb is_change ops.

(** *** The row invariants of the specification *)

(** The field invariant as the specification words it, for a reading
    [carries] of "the side carries a text": a row that carries only one side
    carries a text there and none on the other side. *)
Definition field_invariant (carries : option string → Prop) (r : Row.t) : Prop :=
  match Row.type r with
  | RChange => carries (Row.left r) ∧ carries (Row.right r)
  | RAdd => ¬ carries (Row.left r) ∧ carries (Row.right r)
  | RDel => carries (Row.left r) ∧ ¬ carries (Row.right r)
  | RContext => carries (Row.left r) ∧ carries (Row.right r) ∧ Row.left r = Row.right r
  end.

(** What the fields of a row hold, by its tag: both fields are set in every
    row, and the side an add or a del row has no line for is the empty
    string. *)
Definition row_fields (r : Row.t) : Prop :=
  match Row.type r with
  | RChange => is_Some (Row.left r) ∧ is_Some (Row.right r)
  | RAdd => Row.left r = Some "" ∧ is_Some (Row.right r)
  | RDel => is_Some (Row.left r) ∧ Row.right r = Some ""
  | RContext => is_Some (Row.left r) ∧ is_Some (Row.right r) ∧ Row.left r = Row.right r
  end.

(** No [del] row with an empty right side is directly followed by an [add]
    row. *)
Definition coalesced (rows : list Row.t) : Prop :=
  ∀ i r1 r2, rows !! i = Some r1 → rows !! (i + 1) = Some r2 →
    ¬ (open_del r1 = true ∧ Row.type r2 = RAdd).

(** The left texts of the context, del and change rows, in row order. *)
Definition row_left_texts (r : Row.t) : list string :=
  match Row.type r with
  | RAdd => []
  | _ => option_list (Row.left r)
  end.

(** The right texts of the context, add and change rows, in row order. *)
Definition row_right_texts (r : Row.t) : list string :=
  match Row.type r with
  | RDel => []
  | _ => option_list (Row.right r)
  end.

Definition rows_left (rows : list Row.t) : list string := rows ≫= row_left_texts.
Definition rows_right (rows : list Row.t) : list string := rows ≫= row_right_texts.

End Split.

(** ** Value normaliser *)

Module Json.

(** Exceptions, and computations that return or throw. *)
Inductive error : Type := TypeError | SyntaxError.

Inductive result (A : Type) : Type :=
| Return (x : A)
| Throw (e : error).
Arguments Return {A} x.
Arguments Throw {A} e.

Definition bind {A B} (r : result A) (k : A → result B) : result B :=
  match r with
  | Return x => k x
  | Throw e => Throw e
  end.

(** [try { r } catch { handler }] *)
Definition try_catch {A} (r : result A) (handler : result A) : result A :=
  match r with
  | Return x => Return x
  | Throw _ => handler
  end.

Notation "x ←ᵣ r ; k" := (bind r (λ x, k))
  (at level 20, r at level 100, k at level 200, right associativity, only parsing).

(** The double quote and the backslash, by code unit. *)
Definition dquote : Ascii.ascii := Ascii.ascii_of_nat 34.
Definition backslash : Ascii.ascii := Ascii.ascii_of_nat 92.
Definition nl : string := String Lines.newline "".

(** [gap]: the indentation unit of [JSON.stringify(_, null, 2)]. *)
Definition gap : string := "  ".

Definition hex_digit (n : N) : Ascii.ascii :=
  Ascii.ascii_of_N (if (n <? 10)%N then 48 + n else 87 + n)%N.

(** One code unit of [QuoteJSONString]: the quote and the backslash are
    escaped, control characters get their short or [\u00XX] escape. *)
Definition quote_char (c : Ascii.ascii) : string :=
  let n := Ascii.N_of_ascii c in
  if decide (c = dquote) then String backslash (String dquote "")
  else if decide (c = backslash) then String backslash (String backslash "")
  else if decide (n = 8%N) then String backslash "b"
  else if decide (n = 9%N) then String backslash "t"
  else if decide (n = 10%N) then String backslash "n"
  else if decide (n = 12%N) then String backslash "f"
  else if decide (n = 13%N) then String backslash "r"
  else if decide (n < 32)%N then
    String backslash ("u00" +:+ String (hex_digit (n / 16)) (String (hex_digit (n mod 16)) ""))
  else String c "".

Fixpoint quote_chars (s : string) : string :=
  match s with
  | EmptyString => ""
  | String c s' => quote_char c +:+ quote_chars s'
  end.

(** [QuoteJSONString(s)], which is [JSON.stringify(s)] on a string. *)
Definition QuoteJSONString (s : string) : string :=
  String dquote (quote_chars s +:+ String dquote "").

(** A property key that is an array index: the canonical decimal numeral of
    an integer below [2^32 - 1]. Such keys come first, in numeric order, in
    the property order of an object. *)
Definition digit_of (c : Ascii.ascii) : option N :=
  let n := Ascii.N_of_ascii c in
  if decide (48 ≤ n ≤ 57)%N then Some (n - 48)%N else None.

Fixpoint parse_digits (acc : N) (s : string) : option N :=
  match s with
  | EmptyString => Some acc
  | String c s' =>
      match digit_of c with
      | Some d => parse_digits (10 * acc + d)%N s'
      | None => None
      end
  end.

Definition array_index (key : string) : option N :=
  match key with
  | EmptyString => None
  | String c rest =>
      if decide (c = Ascii.ascii_of_nat 48 ∧ rest ≠ "") then None
      else match parse_digits 0 key with
           | Some n => if decide (n < 2 ^ 32 - 1)%N then Some n else None
           | None => None
           end
  end.

Section Values.
Context {num : Type}.

(** The values the components are handed: what [JSON.parse] produces, an
    absent field ([undefined]), and the two primitive kinds [JSON.stringify]
    does not serialise, a BigInt (it throws) and a symbol (it yields
    [undefined]). An object is its own enumerable string-keyed properties in
    property order. Callables, cyclic objects and accessor properties are
    left out (serialising or coercing an object would have to run them), so
    the model covers every [undefined] and JSON value, and of any other
    value only the kinds named here. *)
Inductive JsonValue : Type :=
| VUndefined
| VNull
| VBool (b : bool)
| VNum (x : num)
| VStr (s : string)
| VBigInt (z : Z)
| VSymbol (description : string)
| VArr (xs : list JsonValue)
| VObj (props : list (string * JsonValue)).

(** [Object.keys(value)] *)
Definition keys (props : list (string * JsonValue)) : list string := props.*1.

(** [value[key]] on an object: the own property, [undefined] when absent. *)
Fixpoint obj_get (props : list (string * JsonValue)) (key : string) : JsonValue :=
  match props with
  | [] => VUndefined
  | (k, v) :: rest => if decide (k = key) then v else obj_get rest key
  end.

(** Storing into an existing own property keeps its place. *)
Fixpoint obj_replace (props : list (string * JsonValue)) (key : string) (v : JsonValue)
  : list (string * JsonValue) :=
  match props with
  | [] => []
  | (k, w) :: rest =>
      if decide (k = key) then (k, v) :: rest else (k, w) :: obj_replace rest key v
  end.

(** A new array-index key goes before the first key that is not an array
    index or is a larger one. *)
Fixpoint obj_insert_index (props : list (string * JsonValue)) (n : N) (key : string)
    (v : JsonValue) : list (string * JsonValue) :=
  match props with
  | [] => [(key, v)]
  | (k, w) :: rest =>
      match array_index k with
      | Some n' =>
          if decide (n' < n)%N then (k, w) :: obj_insert_index rest n key v
          else (key, v) :: props
      | None => (key, v) :: props
      end
  end.

(** [out[key] = v] on an ordinary object whose prototype is
    [Object.prototype]: the key [__proto__] runs the inherited setter and
    creates no own property; an existing key is overwritten in place; a new
    key is created, array indices in numeric order before all other keys and
    the other keys in creation order. *)
Definition obj_set (out : list (string * JsonValue)) (key : string) (v : JsonValue)
  : list (string * JsonValue) :=
  if decide (key = "__proto__") then out
  else if decide (key ∈ keys out) then obj_replace out key v
  else match array_index key with
       | Some n => obj_insert_index out n key v
       | None => out ++ [(key, v)]
       end.

(** [Array.prototype.sort()] with the default comparison, on strings: the
    order of the code units. *)
Definition sort (ks : list string) : list string := merge_sort String.le ks.

(** [stableSortKeys(value)]. The recursive calls on the [value[key]] are made
    through the property list ([sorted_props]), which keeps the recursion
    structural; [stableSortKeys_obj] below is the equation as the source
    writes it. *)
Fixpoint stableSortKeys (value : JsonValue) : JsonValue :=
  match value with
  | VArr xs => VArr (stableSortKeys <$> xs)
  | VObj props =>
      let sorted_props := (λ kv, (kv.1, stableSortKeys kv.2)) <$> props in
      VObj (foldl (λ out key, obj_set out key (obj_get sorted_props key)) []
              (sort (keys props)))
  | _ => value
  end.

(** The JSON values of the data model: [null], booleans, numbers, strings,
    arrays and keyed mappings of JSON values. *)
Fixpoint is_json (v : JsonValue) : bool :=
  match v with
  | VNull | VBool _ | VNum _ | VStr _ => true
  | VArr xs => forallb is_json xs
  | VObj props => forallb (λ kv, is_json kv.2) props
  | _ => false
  end.

(** Neither an array nor an object. *)
Definition is_leaf (v : JsonValue) : bool :=
  match v with
  | VArr _ | VObj _ => false
  | _ => true
  end.

(** Structural equality up to the order of the keys of objects, at every
    nesting level: equal leaves; arrays related element by element, in
    order; objects with the same keys (each once) holding related values. *)
Inductive same_up_to_key_order : JsonValue → JsonValue → Prop :=
| same_leaf v : is_leaf v = true → same_up_to_key_order v v
| same_arr xs ys :
    Forall2 same_up_to_key_order xs ys → same_up_to_key_order (VArr xs) (VArr ys)
| same_obj ps qs :
    NoDup (keys ps) → NoDup (keys qs) → keys ps ≡ₚ keys qs →
    (∀ k, k ∈ keys ps → same_up_to_key_order (obj_get ps k) (obj_get qs k)) →
    same_up_to_key_order (VObj ps) (VObj qs).

(** Induction on a value, with the hypothesis for every element of an array
    and every property value of an object. *)
Section Induction.
Variable P : JsonValue → Prop.
Hypothesis Hleaf : ∀ v, is_leaf v = true → P v.
Hypothesis Harr : ∀ xs, Forall P xs → P (VArr xs).
Hypothesis Hobj : ∀ props, Forall (λ kv, P kv.2) props → P (VObj props).

Fixpoint JsonValue_induction (v : JsonValue) : P v :=
  match v with
  | VArr xs =>
      Harr xs ((fix all (xs : list JsonValue) : Forall P xs :=
                  match xs with
                  | [] => @List.Forall_nil _ P
                  | x :: rest => @List.Forall_cons _ P x rest (JsonValue_induction x) (all rest)
                  end) xs)
  | VObj props =>
      Hobj props ((fix all (ps : list (string * JsonValue)) : Forall (λ kv, P kv.2) ps :=
                     match ps with
                     | [] => @List.Forall_nil _ _
                     | (k, x) :: rest =>
                         @List.Forall_cons _ (λ kv, P kv.2) (k, x) rest (JsonValue_induction x) (all rest)
                     end) props)
  | VUndefined => Hleaf VUndefined eq_refl
  | VNull => Hleaf VNull eq_refl
  | VBool b => Hleaf (VBool b) eq_refl
  | VNum x => Hleaf (VNum x) eq_refl
  | VStr s => Hleaf (VStr s) eq_refl
  | VBigInt z => Hleaf (VBigInt z) eq_refl
  | VSymbol d => Hleaf (VSymbol d) eq_refl
  end.
End Induction.

Variable Number_toString : num → string.
Variable isFinite : num → bool.

(** The elements of an array, serialised in order: an element whose
    serialisation is [undefined] is written [null]. *)
Definition serialize_elements (ser : JsonValue → result (option string))
  : list JsonValue → result (list string) :=
  fix elements xs :=
    match xs with
    | [] => Return []
    | x :: rest =>
        strP ←ᵣ ser x;
        more ←ᵣ elements rest;
        Return (default "null" strP :: more)
    end.

(** The members of an object, serialised in property order: a property whose
    serialisation is [undefined] is left out. *)
Definition serialize_members (ser : JsonValue → result (option string))
  : list (string * JsonValue) → result (list string) :=
  fix members ps :=
    match ps with
    | [] => Return []
    | (k, x) :: rest =>
        strP ←ᵣ ser x;
        more ←ᵣ members rest;
        Return (match strP with
                | Some str => (QuoteJSONString k +:+ ": " +:+ str) :: more
                | None => more
                end)
    end.

(** The text of a container from its serialised parts. *)
Definition wrap (opening closing stepback indent : string) (partial : list string)
  : string :=
  match partial with
  | [] => opening +:+ closing
  | _ => opening +:+ nl +:+ indent +:+
         String.concat ("," +:+ nl +:+ indent) partial +:+
         nl +:+ stepback +:+ closing
  end.

(** [SerializeJSONProperty] of [JSON.stringify(value, null, 2)] at the
    current indentation: [None] is the result [undefined]. *)
Fixpoint serialize (indent : string) (v : JsonValue) : result (option string) :=
  match v with
  | VUndefined | VSymbol _ => Return None
  | VNull => Return (Some "null")
  | VBool b => Return (Some (if b then "true" else "false"))
  | VNum x => Return (Some (if isFinite x then Number_toString x else "null"))
  | VStr s => Return (Some (QuoteJSONString s))
  | VBigInt _ => Throw TypeError
  | VArr xs =>
      let stepback := indent in
      let indent := indent +:+ gap in
      partial ←ᵣ serialize_elements (serialize indent) xs;
      Return (Some (wrap "[" "]" stepback indent partial))
  | VObj props =>
      let stepback := indent in
      let indent := indent +:+ gap in
      partial ←ᵣ serialize_members (serialize indent) props;
      Return (Some (wrap "{" "}" stepback indent partial))
  end.

(** [JSON.stringify(value, null, 2)] *)
Definition JSON_stringify (v : JsonValue) : result (option string) := serialize "" v.

(** [ToString(v)]: it throws on a symbol, and on an object whose own
    [toString] property hides the inherited method (the property holds a
    datum, which cannot be called, and the inherited [valueOf] returns the
    object itself). An array joins its elements with commas, [undefined] and
    [null] elements giving the empty string. *)
Definition ToString_elements (ToString : JsonValue → result string)
  : list JsonValue → result (list string) :=
  fix elements xs :=
    match xs with
    | [] => Return []
    | x :: rest =>
        str ←ᵣ match x with
               | VUndefined | VNull => Return ""
               | _ => ToString x
               end;
        more ←ᵣ elements rest;
        Return (str :: more)
    end.

Fixpoint ToString (v : JsonValue) : result string :=
  match v with
  | VUndefined => Return "undefined"
  | VNull => Return "null"
  | VBool b => Return (if b then "true" else "false")
  | VNum x => Return (Number_toString x)
  | VStr s => Return s
  | VBigInt z => Return (pretty z)
  | VSymbol _ => Throw TypeError
  | VArr xs =>
      parts ←ᵣ ToString_elements ToString xs;
      Return (String.concat "," parts)
  | VObj props =>
      if decide ("toString" ∈ keys props) then Throw TypeError
      else Return "[object Object]"
  end.

(** [String(value)]: a symbol gives its descriptive string, any other value
    goes through [ToString]. *)
Definition String_ (v : JsonValue) : result string :=
  match v with
  | VSymbol description => Return ("Symbol(" +:+ description +:+ ")")
  | _ => ToString v
  end.

(** [toPrettyJSON(value)]. The result is what the [return] statements hand
    back: a string, or [undefined] ([None]) when [JSON.stringify] yields it. *)
Definition toPrettyJSON (value : JsonValue) : result (option string) :=
  match value with
  | VUndefined => Return (Some "")
  | _ =>
      try_catch (JSON_stringify (stableSortKeys value))
        (try_catch (JSON_stringify value)
           (str ←ᵣ String_ value; Return (Some str)))
  end.

End Values.
Arguments JsonValue num : clear implicits.

End Json.

(** ** Numbers that are integers

    The instance of the number parameters used by the worked scenarios: an
    integer of magnitude below [10^21] is finite and prints as its decimal
    numeral. *)

Module IntegerNumbers.
Definition Number_toString (z : Z) : string := pretty z.
Definition isFinite (z : Z) : bool := true.

(** [s] between two double quotes. *)
Definition quoted (s : string) : string :=
  String Json.dquote (s +:+ String Json.dquote "").
End IntegerNumbers.

(** ** The diff view *)

Module View.
Import Diff Split Json.

(** [type Mode = "split" | "unified"] *)
Inductive Mode : Type := ModeSplit | ModeUnified.

(** What the component shows under its header: the two columns of the split
    view, or the lines of the unified view. *)
Inductive Body : Type :=
| SplitBody (left right : list (option string))
| UnifiedBody (lines : list string).

Record Rendered : Type := mkRendered { title : string; summary : string; body : Body }.

Section View.
Context {num : Type}.
Variable Number_toString : num → string.
Variable isFinite : num → bool.

(** [computeOps(leftText, rightText)] on what [toPrettyJSON] returned:
    [leftText.split] throws when the text is [undefined]. *)
Definition computeOps_of (leftText rightText : option string) : result (list Op) :=
  match leftText, rightText with
  | Some l, Some r => Return (computeOps l r)
  | _, _ => Throw TypeError
  end.

(** [DiffView({title, left, right, mode = "split"})] *)
Definition DiffView (title : string) (left right : JsonValue num) (mode : option Mode)
  : result Rendered :=
  let mode := default ModeSplit mode in
  leftText ←ᵣ toPrettyJSON Number_toString isFinite left;
  rightText ←ᵣ toPrettyJSON Number_toString isFinite right;
  ops ←ᵣ computeOps_of leftText rightText;
  let splitRows := opsToSplitRows ops in
  let hasChanges := hasChanges ops in
  Return (mkRendered title (if hasChanges then "changes" else "no changes")
            (match mode with
             | ModeSplit => SplitBody (Row.left <$> splitRows) (Row.right <$> splitRows)
             | ModeUnified => UnifiedBody (unified_line <$> ops)
             end)).
End View.

End View.

(** ** Value tree renderer *)

Module Tree.
Import Json.

(** The disclosure glyph of a container's summary. *)
Inductive Arrow : Type := ArrowRight | ArrowDown.

(** What one [JsonNode] returns: a leaf line, a [<details>] with the mounted
    children, or the bare header of an empty container. *)
Inductive View (child : Type) : Type :=
| Leaf (rendered : string)
| Details (open : bool) (arrow : Arrow) (isArray : bool) (header : string)
    (children : list child)
| Header (isArray : bool) (header : string).
Arguments Leaf {child} rendered.
Arguments Details {child} open arrow isArray header children.
Arguments Header {child} isArray header.

(** A mounted [JsonNode]: its [depth] and [path] props, the initial value of
    its [collapsed] state, its label and what it returns. *)
Inductive Mounted : Type :=
| Mount (depth : Z) (path : string) (collapsed : bool) (label : string)
    (view : View Mounted).

Definition mounted_depth (t : Mounted) : Z := let 'Mount d _ _ _ _ := t in d.
Definition mounted_path (t : Mounted) : string := let 'Mount _ p _ _ _ := t in p.
Definition mounted_collapsed (t : Mounted) : bool := let 'Mount _ _ c _ _ := t in c.
Definition mounted_view (t : Mounted) : View Mounted := let 'Mount _ _ _ _ v := t in v.

(** A node is a container when it renders a header. *)
Definition is_container_view {child} (v : View child) : bool :=
  match v with
  | Leaf _ => false
  | _ => true
  end.

Section Tree.
Context {num : Type}.
Variable Number_toString : num → string.
Variable JSON_parse : string → result (JsonValue num).

(** [tryParse(value)] *)
Definition tryParse (value : JsonValue num) : JsonValue num :=
  match value with
  | VStr s =>
      match JSON_parse s with
      | Return parsed => parsed
      | Throw _ => value
      end
  | _ => value
  end.

(** [isRecord(v)] *)
Definition isRecord (v : JsonValue num) : bool :=
  match v with
  | VObj _ => true
  | _ => false
  end.

(** [Array.isArray(value)] *)
Definition isArray (v : JsonValue num) : bool :=
  match v with
  | VArr _ => true
  | _ => false
  end.

(** The text of a leaf: [JSON.stringify(value)] on a string, [String(value)]
    otherwise, which does not throw on a value that is not a container. *)
Definition leaf_text (value : JsonValue num) : string :=
  match value with
  | VStr s => QuoteJSONString s
  | _ => match String_ Number_toString value with
         | Return str => str
         | Throw _ => ""
         end
  end.

(** [(value as unknown[]).map((v, i) => ...)]: the children of an array,
    from index [i] on. *)
Definition array_children (node : nat → JsonValue num → Mounted)
  : nat → list (JsonValue num) → list Mounted :=
  fix children i xs :=
    match xs with
    | [] => []
    | v :: rest => node i v :: children (S i) rest
    end.

(** [JsonNode({name, value, depth, path, defaultCollapsedDepth})] *)
Fixpoint JsonNode (name : option string) (value : JsonValue num) (depth : Z)
    (path : string) (defaultCollapsedDepth : Z) : Mounted :=
  let isContainer := isArray value || isRecord value in
  let collapsed := isContainer && (depth >=? defaultCollapsedDepth)%Z in
  let label := match name with Some name => name +:+ ": " | None => "" end in
  let arrow := if collapsed then ArrowRight else ArrowDown in
  match value with
  | VArr xs =>
      let header := "Array(" +:+ pretty (length xs) +:+ ")" in
      let hasChildren := bool_decide (0 < length xs) in
      Mount depth path collapsed label
        (if hasChildren then
           Details (negb collapsed) arrow true header
             (array_children
                (λ i v, JsonNode None v (depth + 1)%Z (path +:+ "." +:+ pretty i)
                          defaultCollapsedDepth) 0 xs)
         else Header true header)
  | VObj props =>
      let header := "Object(" +:+ pretty (length (keys props)) +:+ ")" in
      let hasChildren := bool_decide (0 < length props) in
      Mount depth path collapsed label
        (if hasChildren then
           Details (negb collapsed) arrow false header
             ((λ kv, JsonNode (Some kv.1) kv.2 (depth + 1)%Z (path +:+ "." +:+ kv.1)
                       defaultCollapsedDepth) <$> props)
         else Header false header)
  | _ => Mount depth path collapsed label (Leaf (leaf_text value))
  end.

(** [JsonView({value, defaultCollapsedDepth = 0})] *)
Definition JsonView (value : JsonValue num) (defaultCollapsedDepth : option Z) : Mounted :=
  let defaultCollapsedDepth := default 0%Z defaultCollapsedDepth in
  let data := tryParse value in
  JsonNode None data 0 "$" defaultCollapsedDepth.
End Tree.

(** All the nodes mounted under [t], [t] included, each with its nesting
    depth below the root, which is at [level]. *)
Fixpoint mounted_nodes (level : nat) (t : Mounted) : list (nat * Mounted) :=
  (level, t) ::
  match mounted_view t with
  | Details _ _ _ _ children => children ≫= mounted_nodes (S level)
  | _ => []
  end.

(** The default-expansion policy at one mounted node: its [depth] prop is its
    nesting depth; a container starts collapsed exactly when that depth is
    at least [defaultCollapsedDepth]; a leaf does not start collapsed. *)
Definition policy_ok (defaultCollapsedDepth : Z) (level : nat) (t : Mounted) : Prop :=
  mounted_depth t = Z.of_nat level ∧
  if is_container_view (mounted_view t)
  then mounted_collapsed t = true ↔ (Z.of_nat level >= defaultCollapsedDepth)%Z
  else mounted_collapsed t = false.

End Tree.

(** ** Further notions for the properties beyond the claims *)

Module Further.
Import Diff Split Json View Tree.

(** [lines.join("\n")] *)
Definition join_lines (ls : list string) : string := String.concat nl ls.

(** The script with one context op per line, what a diff of equal texts is. *)
Definition all_context (ls : list string) : list Op := (λ l, OpContext l l) <$> ls.

(** No insert is directly followed by a delete. *)
Definition no_add_then_del (ops : list Op) : Prop :=
  ∀ i r l, ops !! i = Some (OpAdd r) → ops !! (i + 1) = Some (OpDel l) → False.

(** The rows the projector pushes for a lone delete and a lone insert. *)
Definition del_row (l : string) : Row.t := Row.mk RDel (Some l) (Some "").
Definition add_row (r : string) : Row.t := Row.mk RAdd (Some "") (Some r).

(** A script that does not begin with an insert. *)
Definition starts_closed (ops : list Op) : Prop :=
  match ops with
  | OpAdd _ :: _ => False
  | _ => True
  end.

(** The number of [change] rows. *)
Definition change_rows (rows : list Row.t) : nat :=
  length (filter (λ r, Row.type r = RChange) rows).

(** [rows.some((r) => r.type !== "context")] *)
Definition rows_have_changes (rows : list Row.t) : bool :=
  existsb (λ r, bool_decide (Row.type r ≠ RContext)) rows.


Section Values.
Context {num : Type}.

(** A value as the runtime can hold it: the keys of every object, at every
    nesting level, are pairwise distinct. *)
Fixpoint well_formed (v : JsonValue num) : bool :=
  match v with
  | VArr xs => forallb well_formed xs
  | VObj props =>
      bool_decide (NoDup (keys props)) && forallb (λ kv, well_formed kv.2) props
  | _ => true
  end.

(** The value holds a BigInt somewhere. *)
Fixpoint has_bigint (v : JsonValue num) : bool :=
  match v with
  | VBigInt _ => true
  | VArr xs => existsb has_bigint xs
  | VObj props => existsb (λ kv, has_bigint kv.2) props
  | _ => false
  end.

(** The number of values in a value: itself and, for a container, the
    values in its entries. *)
Fixpoint value_count (v : JsonValue num) : nat :=
  match v with
  | VArr xs => S (sum_list (value_count <$> xs))
  | VObj props => S (sum_list ((λ kv, value_count kv.2) <$> props))
  | _ => 1
  end.

(** The number of lines a JSON value is pretty-printed on: one for a leaf
    and for an empty container, two more than its entries take for any other
    container. *)
Fixpoint line_count (v : JsonValue num) : nat :=
  match v with
  | VArr xs =>
      match xs with
      | [] => 1
      | _ => 2 + sum_list (line_count <$> xs)
      end
  | VObj props =>
      match props with
      | [] => 1
      | _ => 2 + sum_list ((λ kv, line_count kv.2) <$> props)
      end
  | _ => 1
  end.

(** An absent field or a JSON value: what a span attribute can be. *)
Definition json_or_undefined (v : JsonValue num) : Prop :=
  v = VUndefined ∨ is_json v = true.
End Values.

(** The number of line feeds in a text. *)
Fixpoint newlines (s : string) : nat :=
  match s with
  | EmptyString => 0
  | String c s' => (if decide (c = Lines.newline) then 1 else 0) + newlines s'
  end.

(** The keys React is given for the children of one node are pairwise
    distinct. *)
Definition siblings_distinct (t : Mounted) : Prop :=
  match mounted_view t with
  | Details _ _ _ _ children => NoDup (mounted_path <$> children)
  | _ => True
  end.

End Further.

(** * Properties of the line diff engine *)

Section DiffFacts.
Import Diff.

Lemma lcs_len_nil_r a : lcs_len a [] = 0.
Proof. by destruct a. Qed.

Lemma lcs_len_cons x y a b :
  lcs_len (x :: a) (y :: b) =
    if decide (x = y) then lcs_len a b + 1
    else Nat.max (lcs_len a (y :: b)) (lcs_len (x :: a) b).
Proof. done. Qed.

Lemma spec_walk_nil_r a : spec_walk a [] = OpDel <$> a.
Proof. by destruct a. Qed.

Lemma spec_walk_cons x y a b :
  spec_walk (x :: a) (y :: b) =
    if decide (x = y) then OpContext x y :: spec_walk a b
    else if decide (lcs_len a (y :: b) ≥ lcs_len (x :: a) b)
         then OpDel x :: spec_walk a (y :: b)
         else OpAdd y :: spec_walk (x :: a) b.
Proof. done. Qed.


(** *** The table holds the suffix LCS lengths *)

Lemma get_set_eq (t : table) i j v :
  i < length t → j < length (t !!! i) → get (set t i j v) i j = v.
Proof.
  intros Hi Hj. unfold get, set.
  rewrite list_lookup_total_insert_eq by done.
  by rewrite list_lookup_total_insert_eq.
Qed.

Lemma get_set_ne (t : table) i j i' j' v :
  (i', j') ≠ (i, j) → get (set t i j v) i' j' = get t i' j'.
Proof.
  intros Hne. unfold get, set.
  destruct (decide (i' = i)) as [->|Hi].
  - destruct (decide (i < length t)) as [Hlt|Hge].
    + rewrite list_lookup_total_insert_eq by done.
      rewrite list_lookup_total_insert_ne; [done|congruence].
    + rewrite list_insert_ge; [done|lia].
  - by rewrite list_lookup_total_insert_ne.
Qed.

Lemma length_set (t : table) i j v : length (set t i j v) = length t.
Proof. apply length_insert. Qed.

Lemma length_set_row (t : table) i j v i' :
  length (set t i j v !!! i') = length (t !!! i').
Proof.
  unfold set. destruct (decide (i' = i)) as [->|Hi].
  - destruct (decide (i < length t)) as [Hlt|Hge].
    + rewrite list_lookup_total_insert_eq by done. apply length_insert.
    + rewrite list_insert_ge; [done|lia].
  - by rewrite list_lookup_total_insert_ne.
Qed.

Section Table.
Variables a b : list string.
Let m := length a.
Let n := length b.
Local Abbreviation shape := (Diff.shape a b).
Local Abbreviation done_at := (Diff.done_at a b).
Local Abbreviation rows_inv := (Diff.rows_inv a b).
Local Abbreviation row_inv := (Diff.row_inv a b).
Local Abbreviation finish := (Diff.finish a b).

Lemma shape_set t i j v : shape t → shape (set t i j v).
Proof.
  intros [Hl Hr]. split; [by rewrite length_set|].
  intros i' Hi'. rewrite length_set_row. by apply Hr.
Qed.

Lemma drop_lookup_total (l : list string) i :
  i < length l → drop i l = (l !!! i) :: drop (i + 1) l.
Proof.
  intros Hi. rewrite Nat.add_1_r. apply drop_S.
  by apply list_lookup_lookup_total_lt.
Qed.

Lemma cell_correct t i j :
  i < m → j < n →
  done_at t (i + 1) (j + 1) → done_at t (i + 1) j → done_at t i (j + 1) →
  cell a b t i j = lcs_len (drop i a) (drop j b).
Proof.
  intros Hi Hj H11 H10 H01. unfold cell.
  rewrite (drop_lookup_total a i), (drop_lookup_total b j) by done.
  rewrite lcs_len_cons, H11, H10, H01.
  rewrite <-(drop_lookup_total a i), <-(drop_lookup_total b j) by done.
  done.
Qed.

Lemma row_inv_step t i j :
  i < m → j < n → row_inv t i (S j) → row_inv (set t i j (cell a b t i j)) i j.
Proof.
  intros Hi Hj (Hs & Hd & Hz). split_and!.
  - by apply shape_set.
  - intros i' j' Hi' Hj' Hc. unfold done_at.
    destruct (decide ((i', j') = (i, j))) as [[= -> ->]|Hne].
    + destruct Hs as [Hl Hr].
      rewrite get_set_eq; [|lia|rewrite Hr; lia].
      apply cell_correct; [done..| | |]; apply Hd; lia.
    + rewrite get_set_ne by done. apply Hd; [done..|].
      destruct Hc as [?|[-> ?]]; [by left|right]. split; [done|].
      destruct (decide (j' = j)) as [->|]; [done|lia].
  - intros i' Hi'. rewrite get_set_ne; [by apply Hz|]. intros [= -> _]. lia.
Qed.

Lemma fill_row_inv i k t :
  i < m → k ≤ n → row_inv t i k → row_inv (fill_row a b i k t) i 0.
Proof.
  intros Hi. revert t. induction k as [|j IH]; intros t Hk Hinv; [done|].
  simpl. apply IH; [lia|]. apply row_inv_step; [done|lia|done].
Qed.

Lemma rows_inv_enter t i : i < m → rows_inv t (S i) → row_inv t i n.
Proof.
  intros Hi (Hs & Hd & Hz). split_and!; [done| |].
  - intros i' j Hi' Hj [?|[-> ?]]; [apply Hd; lia|].
    assert (j = n) as -> by lia. unfold done_at.
    rewrite Hz by lia. unfold n. by rewrite drop_all, lcs_len_nil_r.
  - intros i' Hi'. apply Hz. lia.
Qed.

Lemma rows_inv_leave t i : row_inv t i 0 → rows_inv t i.
Proof.
  intros (Hs & Hd & Hz). split_and!; [done| |done].
  intros i' j Hi' Hj. apply Hd; [lia..|].
  destruct (decide (i' = i)) as [->|]; [right; lia|left; lia].
Qed.

Lemma fill_rows_inv k t :
  k ≤ m → rows_inv t k → rows_inv (fill_rows a b n k t) 0.
Proof.
  revert t. induction k as [|i IH]; intros t Hk Hinv; [done|].
  simpl. apply IH; [lia|]. apply rows_inv_leave, fill_row_inv; [lia|done|].
  apply rows_inv_enter; [lia|done].
Qed.

Lemma get_init_table i j : i ≤ m → j ≤ n → get (init_table m n) i j = 0.
Proof.
  intros Hi Hj. unfold get, init_table.
  rewrite lookup_total_replicate_2 by lia.
  by rewrite lookup_total_replicate_2 by lia.
Qed.

Lemma rows_inv_init : rows_inv (init_table m n) m.
Proof.
  split_and!.
  - split; [apply length_replicate|]. intros i Hi. unfold init_table.
    rewrite lookup_total_replicate_2 by lia. apply length_replicate.
  - intros i j Hi Hj. assert (i = m) as -> by lia. unfold done_at.
    rewrite get_init_table by done. unfold m. by rewrite drop_all.
  - intros i Hi. apply get_init_table; lia.
Qed.

(** After the two nested loops, [lcs[i][j]] is the LCS length of the
    suffixes [a[i:]] and [b[j:]], for every cell of the table. *)
Lemma build_table_correct i j :
  i ≤ m → j ≤ n →
  get (build_table a b) i j = lcs_len (drop i a) (drop j b).
Proof.
  intros Hi Hj.
  destruct (fill_rows_inv m (init_table m n)) as (_ & Hd & _);
    [done|apply rows_inv_init|].
  apply Hd; [lia|done].
Qed.

(** *** The three loops against the specification's walk *)

Lemma drain_left_spec i ops :
  (drain_left a i ops).2 = ops ++ (OpDel <$> drop i a).
Proof.
  funelim (drain_left a i ops); simpl.
  - match goal with IH : _.2 = _ |- _ => rewrite IH end.
    rewrite (drop_lookup_total a i) by done.
    by rewrite fmap_cons, <-app_assoc.
  - rewrite drop_ge by lia. by rewrite app_nil_r.
Qed.

Lemma drain_right_spec j ops :
  (drain_right b j ops).2 = ops ++ (OpAdd <$> drop j b).
Proof.
  funelim (drain_right b j ops); simpl.
  - match goal with IH : _.2 = _ |- _ => rewrite IH end.
    rewrite (drop_lookup_total b j) by done.
    by rewrite fmap_cons, <-app_assoc.
  - rewrite drop_ge by lia. by rewrite app_nil_r.
Qed.

Lemma diff_lines_finish :
  diff_lines a b = finish (walk a b (build_table a b) 0 0 []).
Proof.
  unfold diff_lines, finish.
  destruct (walk _ _ _ _ _ _) as [[i j] ops].
  destruct (drain_left _ _ _) as [i' ops1]. simpl.
  by destruct (drain_right _ _ _).
Qed.

Lemma finish_exit i j ops :
  i ≤ m → j ≤ n → ¬ (i < m ∧ j < n) →
  finish (i, j, ops) = ops ++ spec_walk (drop i a) (drop j b).
Proof.
  intros Hi Hj Hexit. unfold finish.
  rewrite drain_right_spec, drain_left_spec, <-app_assoc. f_equal.
  destruct (decide (i = m)) as [->|].
  - unfold m. by rewrite drop_all.
  - assert (j = n) as -> by (unfold m, n in *; lia).
    unfold n. by rewrite drop_all, spec_walk_nil_r, app_nil_r.
Qed.

Lemma walk_spec lcs i j ops :
  (∀ i j, i ≤ m → j ≤ n → get lcs i j = lcs_len (drop i a) (drop j b)) →
  i ≤ m → j ≤ n →
  finish (walk a b lcs i j ops) = ops ++ spec_walk (drop i a) (drop j b).
Proof.
  intros Hlcs. funelim (walk a b lcs i j ops); intros Hi Hj;
    [by apply finish_exit|..];
    match goal with Hr : _ < _ ∧ _ < _ |- _ => destruct Hr as [Hi' Hj'] end;
    match goal with IH : _ → _ → _ → finish _ = _ |- _ =>
      rewrite IH by (done || (fold m n; lia)) end;
    rewrite <-app_assoc; f_equal; simpl;
    rewrite (drop_lookup_total a i), (drop_lookup_total b j) by done;
    rewrite spec_walk_cons.
  - (* context *) by rewrite decide_True.
  - (* delete *)
    rewrite decide_False by done.
    rewrite <-(drop_lookup_total a i), <-(drop_lookup_total b j) by done.
    rewrite decide_True; [done|].
    rewrite <-!Hlcs; [done|fold m n; lia..].
  - (* insert *)
    rewrite decide_False by done.
    rewrite <-(drop_lookup_total a i), <-(drop_lookup_total b j) by done.
    rewrite decide_False; [done|].
    rewrite <-!Hlcs; [done|fold m n; lia..].
Qed.

Lemma diff_lines_spec : diff_lines a b = spec_walk a b.
Proof.
  rewrite diff_lines_finish, walk_spec; [done| |lia..].
  apply build_table_correct.
Qed.
End Table.

(** *** The specification's walk is a valid, optimal script *)

Lemma replay_left_cons op ops : replay_left (op :: ops) = left_lines op ++ replay_left ops.
Proof. done. Qed.

Lemma replay_right_cons op ops : replay_right (op :: ops) = right_lines op ++ replay_right ops.
Proof. done. Qed.

Lemma valid_script_cons op ops a b :
  context_ok op → valid_script a b ops →
  valid_script (left_lines op ++ a) (right_lines op ++ b) (op :: ops).
Proof.
  intros Hop (Hl & Hr & Hc). split_and!.
  - by rewrite replay_left_cons, Hl.
  - by rewrite replay_right_cons, Hr.
  - by constructor.
Qed.

Lemma valid_script_adds b : valid_script [] b (OpAdd <$> b).
Proof.
  induction b as [|y b IH]; [by split_and!; try constructor|].
  by apply (valid_script_cons (OpAdd y)).
Qed.

Lemma valid_script_dels a : valid_script a [] (OpDel <$> a).
Proof.
  induction a as [|x a IH]; [by split_and!; try constructor|].
  by apply (valid_script_cons (OpDel x)).
Qed.

Lemma spec_walk_valid a b : valid_script a b (spec_walk a b).
Proof.
  revert b. induction a as [|x a IHa]; intros b; [apply valid_script_adds|].
  induction b as [|y b IHb]; [rewrite spec_walk_nil_r; apply valid_script_dels|].
  rewrite spec_walk_cons. repeat case_decide; subst.
  - by apply (valid_script_cons (OpContext y y)).
  - by apply (valid_script_cons (OpDel x)).
  - by apply (valid_script_cons (OpAdd y)).
Qed.

Lemma computeOps_script leftText rightText :
  valid_script (Lines.split leftText) (Lines.split rightText)
    (computeOps leftText rightText).
Proof. unfold computeOps. rewrite diff_lines_spec. apply spec_walk_valid. Qed.

Lemma contexts_cons op ops :
  contexts (op :: ops) = (if is_change op then 0 else 1) + contexts ops.
Proof. unfold contexts. rewrite filter_cons. by destruct op. Qed.

Lemma changes_cons op ops :
  changes (op :: ops) = (if is_change op then 1 else 0) + changes ops.
Proof. unfold changes. rewrite filter_cons. by destruct op. Qed.

Lemma contexts_adds b : contexts (OpAdd <$> b) = 0.
Proof. induction b; [done|]. by rewrite fmap_cons, contexts_cons. Qed.

Lemma contexts_dels a : contexts (OpDel <$> a) = 0.
Proof. induction a; [done|]. by rewrite fmap_cons, contexts_cons. Qed.

(** The recurrence picks the larger neighbour, and the walk moves to it. *)
Lemma spec_walk_contexts a b : contexts (spec_walk a b) = lcs_len a b.
Proof.
  revert b. induction a as [|x a IHa]; intros b; [apply contexts_adds|].
  induction b as [|y b IHb].
  { rewrite spec_walk_nil_r, lcs_len_nil_r. apply contexts_dels. }
  rewrite spec_walk_cons, lcs_len_cons.
  repeat case_decide; rewrite contexts_cons; unfold is_change.
  - rewrite IHa. lia.
  - rewrite IHa. lia.
  - rewrite IHb. lia.
Qed.

Lemma sublist_tail (z : string) s l : z :: s `sublist_of` l → s `sublist_of` l.
Proof. intros H. etrans; [|exact H]. by apply sublist_cons. Qed.

(** No common subsequence is longer than [lcs_len]. *)
Lemma lcs_len_upper s a b :
  s `sublist_of` a → s `sublist_of` b → length s ≤ lcs_len a b.
Proof.
  revert s b. induction a as [|x a IHa]; intros s b Ha Hb.
  { apply sublist_nil_r in Ha as ->. cbn [length]. lia. }
  revert s Ha Hb. induction b as [|y b IHb]; intros s Ha Hb.
  { apply sublist_nil_r in Hb as ->. cbn [length]. lia. }
  rewrite lcs_len_cons.
  apply sublist_cons_r in Ha as [Ha|(s' & -> & Ha)].
  - (* [x] is not used by [s] *)
    case_decide as Hxy; [subst y|pose proof (IHa _ _ Ha Hb); lia].
    destruct s as [|z s]; [cbn [length]; lia|].
    apply sublist_tail in Ha.
    assert (s `sublist_of` b) as Hsb.
    { apply sublist_cons_r in Hb as [Hb|(? & [= <- <-] & Hb)]; [|done].
      by apply sublist_tail in Hb. }
    pose proof (IHa s b Ha Hsb). cbn [length]. lia.
  - (* [s] starts with [x] *)
    apply sublist_cons_r in Hb as [Hb|(? & [= <- <-] & Hb)].
    + case_decide as Hxy.
      * apply sublist_tail in Hb. pose proof (IHa s' b Ha Hb). cbn [length]. lia.
      * assert (x :: s' `sublist_of` x :: a) as Ha' by (by apply sublist_skip).
        pose proof (IHb (x :: s') Ha' Hb). lia.
    + rewrite decide_True by done. pose proof (IHa s' b Ha Hb). cbn [length]. lia.
Qed.

(** Some common subsequence has length [lcs_len]. *)
Lemma lcs_len_attained a b :
  ∃ s, s `sublist_of` a ∧ s `sublist_of` b ∧ length s = lcs_len a b.
Proof.
  revert b. induction a as [|x a IHa]; intros b.
  { exists []. split_and!; [done|apply sublist_nil_l|done]. }
  induction b as [|y b IHb].
  { exists []. split_and!; [apply sublist_nil_l|done|by rewrite lcs_len_nil_r]. }
  rewrite lcs_len_cons. case_decide as Hxy.
  - subst y. destruct (IHa b) as (s & ? & ? & Hlen).
    exists (x :: s). split_and!; [by apply sublist_skip..|cbn [length]; lia].
  - destruct (Nat.max_spec (lcs_len a (y :: b)) (lcs_len (x :: a) b))
      as [[_ ->]|[_ ->]].
    + destruct IHb as (s & ? & ? & Hlen).
      exists s. split_and!; [done|by apply sublist_cons|done].
    + destruct (IHa (y :: b)) as (s & ? & ? & Hlen).
      exists s. split_and!; [by apply sublist_cons|done|done].
Qed.

Lemma lcs_len_is_lcs_length a b : is_lcs_length a b (lcs_len a b).
Proof. split; [apply lcs_len_attained|intros s; apply lcs_len_upper]. Qed.

Lemma context_lines_cons op ops :
  context_lines (op :: ops) =
    match op with OpContext l _ => [l] | _ => [] end ++ context_lines ops.
Proof. done. Qed.

Lemma context_lines_length ops : length (context_lines ops) = contexts ops.
Proof.
  induction ops as [|op ops IH]; [done|].
  rewrite contexts_cons, context_lines_cons, length_app, IH. by destruct op.
Qed.

Lemma context_lines_left ops : context_lines ops `sublist_of` replay_left ops.
Proof.
  induction ops as [|op ops IH]; [done|].
  rewrite context_lines_cons, replay_left_cons.
  destruct op; cbn [left_lines app]; first [done|by constructor].
Qed.

Lemma context_lines_right ops :
  Forall context_ok ops → context_lines ops `sublist_of` replay_right ops.
Proof.
  induction 1 as [|op ops Hop _ IH]; [done|].
  rewrite context_lines_cons, replay_right_cons.
  destruct op; cbn [right_lines app context_ok] in *; subst; first [done|by constructor].
Qed.

Lemma valid_script_contexts a b ops :
  valid_script a b ops → contexts ops ≤ lcs_len a b.
Proof.
  intros (<- & <- & Hc). rewrite <-context_lines_length.
  apply lcs_len_upper; [apply context_lines_left|by apply context_lines_right].
Qed.

(** Every line of either side is accounted for by exactly one op. *)
Lemma replay_lengths ops :
  length (replay_left ops) + length (replay_right ops) = 2 * contexts ops + changes ops.
Proof.
  induction ops as [|op ops IH]; [done|].
  rewrite replay_left_cons, replay_right_cons, !length_app, contexts_cons, changes_cons.
  destruct op; cbn [left_lines right_lines is_change length]; lia.
Qed.

Lemma spec_walk_minimal a b ops :
  valid_script a b ops → changes (spec_walk a b) ≤ changes ops.
Proof.
  intros Hv. pose proof (valid_script_contexts _ _ _ Hv) as Hle.
  pose proof (replay_lengths ops) as H1.
  pose proof (replay_lengths (spec_walk a b)) as H2.
  destruct Hv as (Hl & Hr & _).
  destruct (spec_walk_valid a b) as (Hl' & Hr' & _).
  rewrite Hl, Hr in H1. rewrite Hl', Hr', spec_walk_contexts in H2. lia.
Qed.
End DiffFacts.

(** * Properties of the diff projector *)

Section SplitFacts.
Import Diff Split.

Example split_ex :
  opsToSplitRows [OpContext "a" "a"; OpDel "b"; OpAdd "c"; OpAdd "d"; OpDel ""; OpAdd ""; OpAdd "e"]
  = [Row.mk RContext (Some "a") (Some "a"); Row.mk RChange (Some "b") (Some "c");
     Row.mk RAdd (Some "") (Some "d"); Row.mk RChange (Some "") (Some "");
     Row.mk RAdd (Some "") (Some "e")].
Proof. reflexivity. Qed.

Lemma opsToSplitRows_snoc ops op :
  opsToSplitRows (ops ++ [op]) = push_op (opsToSplitRows ops) op.
Proof. apply foldl_snoc. Qed.

Lemma open_del_type prev : open_del prev = true → Row.type prev = RDel.
Proof. unfold open_del. intros [H _]%andb_prop. by apply bool_decide_eq_true in H. Qed.

Lemma insert_last (rows : list Row.t) prev r :
  <[pred (length (rows ++ [prev])) := r]> (rows ++ [prev]) = rows ++ [r].
Proof.
  rewrite length_app. cbn [length]. rewrite Nat.add_1_r. cbn [pred].
  rewrite insert_app_r_alt by done. by rewrite Nat.sub_diag.
Qed.

(** An insert after an open [del] row is stored into that row. *)
Lemma push_add_merge rows prev r :
  open_del prev = true →
  push_op (rows ++ [prev]) (OpAdd r) = rows ++ [promote prev r].
Proof. intros Hopen. unfold push_op. by rewrite last_snoc, Hopen, insert_last. Qed.

(** An insert after anything else is pushed as a new [add] row. *)
Lemma push_add_new rows r :
  (∀ prev, last rows = Some prev → open_del prev = false) →
  push_op rows (OpAdd r) = rows ++ [Row.mk RAdd (Some "") (Some r)].
Proof.
  intros Hclosed. unfold push_op. destruct (last rows) as [prev|] eqn:Hlast; [|done].
  by rewrite (Hclosed prev).
Qed.

(** The two cases of [push_op] on an insert, as a case analysis. *)
Lemma push_add_cases rows r :
  (∃ rows' prev, rows = rows' ++ [prev] ∧ open_del prev = true ∧
     push_op rows (OpAdd r) = rows' ++ [promote prev r]) ∨
  ((∀ prev, last rows = Some prev → open_del prev = false) ∧
     push_op rows (OpAdd r) = rows ++ [Row.mk RAdd (Some "") (Some r)]).
Proof.
  destruct (last rows) as [prev|] eqn:Hlast.
  - destruct (open_del prev) eqn:Hopen.
    + left. apply last_Some in Hlast as [rows' ->].
      exists rows', prev. split_and!; [done..|by apply push_add_merge].
    + assert (∀ p, last rows = Some p → open_del p = false) as Hclosed.
      { intros p Hp. by assert (p = prev) as -> by congruence. }
      right. split; [|by apply push_add_new].
      intros p Hp. apply Hclosed. by rewrite Hlast.
  - right. split; [done|]. apply push_add_new. intros p Hp. congruence.
Qed.

(** *** Field invariant *)

Ltac solve_row_fields :=
  unfold row_fields; cbn; split_and?; first [done|by eexists].

Lemma push_op_row_fields rows op :
  context_ok op → Forall row_fields rows → Forall row_fields (push_op rows op).
Proof.
  intros Hop Hrows. destruct op as [l r|l|r].
  - apply Forall_app. split; [done|]. constructor; [|done].
    cbn in Hop. subst r. solve_row_fields.
  - apply Forall_app. split; [done|]. constructor; [|done]. solve_row_fields.
  - destruct (push_add_cases rows r) as [(rows' & prev & -> & Hopen & ->)|[_ ->]].
    + apply Forall_app in Hrows as [Hrows' [Hprev _]%Forall_cons].
      apply Forall_app. split; [done|]. constructor; [|done].
      unfold row_fields in Hprev. rewrite (open_del_type _ Hopen) in Hprev.
      destruct Hprev as [Hleft _]. solve_row_fields.
    + apply Forall_app. split; [done|]. constructor; [|done]. solve_row_fields.
Qed.

Lemma opsToSplitRows_row_fields ops :
  Forall context_ok ops → Forall row_fields (opsToSplitRows ops).
Proof.
  induction ops as [|op ops IH] using rev_ind; intros Hops; [constructor|].
  apply Forall_app in Hops as [Hops [Hop _]%Forall_cons].
  rewrite opsToSplitRows_snoc. apply push_op_row_fields; auto.
Qed.

(** *** Coalescing *)

Lemma coalesced_prefix rows1 rows2 : coalesced (rows1 ++ rows2) → coalesced rows1.
Proof.
  intros H i r1 r2 H1 H2. apply (H i r1 r2); by apply lookup_app_l_Some.
Qed.

Lemma coalesced_snoc rows r :
  coalesced rows →
  (∀ prev, last rows = Some prev → ¬ (open_del prev = true ∧ Row.type r = RAdd)) →
  coalesced (rows ++ [r]).
Proof.
  intros Hrows Hlast i r1 r2 H1 H2.
  destruct (decide (i + 1 < length rows)) as [Hlt|Hge].
  - rewrite lookup_app_l in H1 by lia. rewrite lookup_app_l in H2 by lia.
    by apply (Hrows i).
  - assert (i < length rows) by (by eapply lookup_lt_Some in H1 as Hl;
      rewrite length_app in Hl; cbn in Hl; apply lookup_lt_Some in H2 as Hl2;
      rewrite length_app in Hl2; cbn in Hl2; lia).
    apply lookup_lt_Some in H2 as Hl2. rewrite length_app in Hl2. cbn in Hl2.
    assert (i + 1 = length rows) as Hi by lia.
    rewrite lookup_app_l in H1 by lia.
    rewrite Hi, lookup_app_r, Nat.sub_diag in H2 by lia. injection H2 as <-.
    apply (Hlast r1). rewrite last_lookup. by replace (pred (length rows)) with i by lia.
Qed.

Lemma push_op_coalesced rows op : coalesced rows → coalesced (push_op rows op).
Proof.
  intros Hrows. destruct op as [l r|l|r].
  - apply coalesced_snoc; [done|]. by intros prev _ [_ ?].
  - apply coalesced_snoc; [done|]. by intros prev _ [_ ?].
  - destruct (push_add_cases rows r) as [(rows' & prev & -> & Hopen & ->)|[Hclosed ->]].
    + apply coalesced_snoc; [by eapply coalesced_prefix|]. by intros ? _ [_ ?].
    + apply coalesced_snoc; [done|]. intros prev Hprev [Hopen _].
      by rewrite (Hclosed prev Hprev) in Hopen.
Qed.

Lemma opsToSplitRows_coalesced ops : coalesced (opsToSplitRows ops).
Proof.
  induction ops as [|op ops IH] using rev_ind; [by intros i ? ? ?|].
  rewrite opsToSplitRows_snoc. by apply push_op_coalesced.
Qed.

(** *** Content and order *)

Lemma rows_left_snoc rows r : rows_left (rows ++ [r]) = rows_left rows ++ row_left_texts r.
Proof. unfold rows_left. rewrite bind_app. cbn. by rewrite app_nil_r. Qed.

Lemma rows_right_snoc rows r : rows_right (rows ++ [r]) = rows_right rows ++ row_right_texts r.
Proof. unfold rows_right. rewrite bind_app. cbn. by rewrite app_nil_r. Qed.

Lemma replay_left_snoc ops op : replay_left (ops ++ [op]) = replay_left ops ++ left_lines op.
Proof. unfold replay_left. rewrite bind_app. cbn. by rewrite app_nil_r. Qed.

Lemma replay_right_snoc ops op : replay_right (ops ++ [op]) = replay_right ops ++ right_lines op.
Proof. unfold replay_right. rewrite bind_app. cbn. by rewrite app_nil_r. Qed.

Lemma push_op_left rows op :
  rows_left (push_op rows op) = rows_left rows ++ left_lines op.
Proof.
  destruct op as [l r|l|r]; [by cbn [push_op]; rewrite rows_left_snoc..|].
  destruct (push_add_cases rows r) as [(rows' & prev & -> & Hopen & ->)|[_ ->]].
  - rewrite !rows_left_snoc, app_nil_r. f_equal.
    unfold row_left_texts. by rewrite (open_del_type _ Hopen).
  - by rewrite rows_left_snoc.
Qed.

Lemma push_op_right rows op :
  rows_right (push_op rows op) = rows_right rows ++ right_lines op.
Proof.
  destruct op as [l r|l|r]; [by cbn [push_op]; rewrite rows_right_snoc..|].
  destruct (push_add_cases rows r) as [(rows' & prev & -> & Hopen & ->)|[_ ->]].
  - rewrite !rows_right_snoc, <-app_assoc. f_equal.
    unfold row_right_texts. by rewrite (open_del_type _ Hopen).
  - by rewrite rows_right_snoc.
Qed.

Lemma opsToSplitRows_left ops : rows_left (opsToSplitRows ops) = replay_left ops.
Proof.
  induction ops as [|op ops IH] using rev_ind; [done|].
  by rewrite opsToSplitRows_snoc, push_op_left, replay_left_snoc, IH.
Qed.

Lemma opsToSplitRows_right ops : rows_right (opsToSplitRows ops) = replay_right ops.
Proof.
  induction ops as [|op ops IH] using rev_ind; [done|].
  by rewrite opsToSplitRows_snoc, push_op_right, replay_right_snoc, IH.
Qed.
End SplitFacts.

(** * Properties of the value normaliser *)

Section JsonFacts.
Import Json.
Context {num : Type}.
Variable Number_toString : num → string.
Variable isFinite : num → bool.
Implicit Types (v w : JsonValue num) (xs : list (JsonValue num))
  (props ps qs : list (string * JsonValue num)).

Lemma obj_get_fmap (f : JsonValue num → JsonValue num) ps key :
  f VUndefined = VUndefined →
  obj_get ((λ kv, (kv.1, f kv.2)) <$> ps) key = f (obj_get ps key).
Proof.
  intros Hf. induction ps as [|[k x] ps IH]; [done|].
  cbn. by case_decide.
Qed.

Lemma foldl_obj_set_ext (f g : string → JsonValue num) (l : list string) out :
  (∀ k, k ∈ l → f k = g k) →
  foldl (λ out key, obj_set out key (f key)) out l =
  foldl (λ out key, obj_set out key (g key)) out l.
Proof.
  revert out. induction l as [|k l IH]; intros out Hfg; [done|].
  cbn. rewrite (Hfg k) by left. apply IH. intros k' Hk'. apply Hfg. by right.
Qed.

(** The object case of [stableSortKeys] as the source writes it. *)
Lemma stableSortKeys_obj props :
  stableSortKeys (VObj props) =
    VObj (foldl (λ out key, obj_set out key (stableSortKeys (obj_get props key))) []
            (sort (keys props))).
Proof.
  cbn [stableSortKeys]. f_equal. apply foldl_obj_set_ext.
  intros k _. by apply obj_get_fmap.
Qed.

Lemma obj_get_elem ps k : k ∈ keys ps → (k, obj_get ps k) ∈ ps.
Proof.
  induction ps as [|[k' x] ps IH]; [by intros ?%elem_of_nil|].
  cbn. intros [->|Hk]%elem_of_cons.
  - rewrite decide_True by done. by left.
  - case_decide; [subst; by left|]. right. by apply IH.
Qed.

(** Sorting forgets the order the keys came in. *)
Lemma sort_Permutation (l1 l2 : list string) : l1 ≡ₚ l2 → sort l1 = sort l2.
Proof.
  intros Hperm. unfold sort.
  apply (Sorted_unique String.le); [apply Sorted_merge_sort; apply _..|].
  by rewrite !merge_sort_Permutation.
Qed.

Lemma stableSortKeys_same v w :
  same_up_to_key_order v w → stableSortKeys v = stableSortKeys w.
Proof.
  revert w. induction v as [v Hv|xs IH|ps IH] using JsonValue_induction; intros w Hsame.
  - inversion Hsame; subst; by try done.
  - inversion Hsame as [|xs' ys Hall|]; subst; [done|].
    cbn [stableSortKeys]. f_equal.
    clear Hsame. induction Hall as [|x y xs ys Hxy _ IHall]; [done|].
    apply Forall_cons in IH as [Hx Hxs]. cbn. f_equal; auto.
  - inversion Hsame as [| |ps' qs Hnd1 Hnd2 Hkeys Hvals]; subst; [done|].
    rewrite !stableSortKeys_obj. f_equal.
    rewrite <-(sort_Permutation _ _ Hkeys). apply foldl_obj_set_ext.
    intros k Hk. assert (k ∈ keys ps) as Hk'.
    { unfold sort in Hk. by rewrite merge_sort_Permutation in Hk. }
    rewrite Forall_forall in IH.
    apply (IH (k, obj_get ps k)); [by apply obj_get_elem|by apply Hvals].
Qed.

(** *** JSON values serialise *)

Lemma obj_replace_Forall (P : JsonValue num → Prop) out k v :
  Forall (λ kv, P kv.2) out → P v → Forall (λ kv, P kv.2) (obj_replace out k v).
Proof.
  intros Hout Hv. induction Hout as [|[k' x] out Hx Hout' IH]; [done|].
  cbn. case_decide; constructor; cbn; auto.
Qed.

Lemma obj_insert_index_Forall (P : JsonValue num → Prop) out n k v :
  Forall (λ kv, P kv.2) out → P v → Forall (λ kv, P kv.2) (obj_insert_index out n k v).
Proof.
  intros Hout Hv. induction Hout as [|[k' x] out Hx Hout' IH]; [by repeat constructor|].
  cbn. destruct (array_index k') as [n'|]; [case_decide|]; repeat constructor; cbn; auto.
Qed.

Lemma obj_set_Forall (P : JsonValue num → Prop) out k v :
  Forall (λ kv, P kv.2) out → P v → Forall (λ kv, P kv.2) (obj_set out k v).
Proof.
  intros Hout Hv. unfold obj_set. repeat case_decide; [done|by apply obj_replace_Forall|].
  destruct (array_index k); [by apply obj_insert_index_Forall|].
  apply Forall_app. by repeat constructor.
Qed.

Lemma foldl_obj_set_Forall (P : JsonValue num → Prop) (f : string → JsonValue num) l out :
  Forall (λ kv, P kv.2) out → (∀ k, k ∈ l → P (f k)) →
  Forall (λ kv, P kv.2) (foldl (λ out key, obj_set out key (f key)) out l).
Proof.
  revert out. induction l as [|k l IH]; intros out Hout Hf; [done|].
  cbn. apply IH; [|intros k' Hk'; apply Hf; by right].
  apply obj_set_Forall; [done|]. apply Hf. by left.
Qed.

Lemma Forall_mp {A} (P Q : A → Prop) (l : list A) :
  Forall (λ x, P x → Q x) l → Forall P l → Forall Q l.
Proof. rewrite !Forall_forall. auto. Qed.

Lemma is_json_arr xs : is_json (VArr xs) = true ↔ Forall (λ x, is_json x = true) xs.
Proof. cbn. rewrite forallb_forall, Forall_forall. by setoid_rewrite list_elem_of_In. Qed.

Lemma is_json_obj ps :
  is_json (VObj ps) = true ↔ Forall (λ kv, is_json kv.2 = true) ps.
Proof. cbn. rewrite forallb_forall, Forall_forall. by setoid_rewrite list_elem_of_In. Qed.

Lemma stableSortKeys_is_json v : is_json v = true → is_json (stableSortKeys v) = true.
Proof.
  induction v as [v Hv|xs IH|ps IH] using JsonValue_induction; intros Hjson.
  - by destruct v.
  - apply is_json_arr in Hjson. cbn [stableSortKeys]. apply is_json_arr.
    apply Forall_fmap. by apply (Forall_mp _ _ _ IH).
  - apply is_json_obj in Hjson. rewrite stableSortKeys_obj. apply is_json_obj.
    apply (foldl_obj_set_Forall (λ x, is_json x = true)); [done|].
    intros k Hk. assert (k ∈ keys ps) as Hk'.
    { unfold sort in Hk. by rewrite merge_sort_Permutation in Hk. }
    apply obj_get_elem in Hk'. rewrite Forall_forall in IH, Hjson.
    apply (IH _ Hk'), (Hjson _ Hk').
Qed.

Lemma serialize_elements_ok (ser : JsonValue num → result (option string)) xs :
  Forall (λ x, ∃ str, ser x = Return (Some str)) xs →
  ∃ partial, serialize_elements ser xs = Return partial.
Proof.
  induction 1 as [|x xs [str Hx] _ [partial IH]]; [by eexists|].
  cbn. rewrite Hx. cbn. rewrite IH. by eexists.
Qed.

Lemma serialize_members_ok (ser : JsonValue num → result (option string)) ps :
  Forall (λ kv, ∃ str, ser kv.2 = Return (Some str)) ps →
  ∃ partial, serialize_members ser ps = Return partial.
Proof.
  induction 1 as [|[k x] ps [str Hx] _ [partial IH]]; [by eexists|].
  cbn in *. rewrite Hx. cbn. rewrite IH. by eexists.
Qed.

Lemma serialize_is_json indent v :
  is_json v = true →
  ∃ str, serialize Number_toString isFinite indent v = Return (Some str).
Proof.
  revert indent.
  induction v as [v Hv|xs IH|ps IH] using JsonValue_induction; intros indent Hjson.
  - destruct v; try done; by eexists.
  - apply is_json_arr in Hjson. cbn [serialize].
    destruct (serialize_elements_ok
      (serialize Number_toString isFinite (indent +:+ gap)) xs) as [partial ->].
    { apply (Forall_mp (λ x, is_json x = true)); [|done].
      eapply Forall_impl; [exact IH|]. cbn. auto. }
    by eexists.
  - apply is_json_obj in Hjson. cbn [serialize].
    destruct (serialize_members_ok
      (serialize Number_toString isFinite (indent +:+ gap)) ps) as [partial ->].
    { apply (Forall_mp (λ kv, is_json kv.2 = true)); [|done].
      eapply Forall_impl; [exact IH|]. cbn. auto. }
    by eexists.
Qed.

(** *** What [toPrettyJSON] can return *)

Lemma toPrettyJSON_json v :
  is_json v = true →
  toPrettyJSON Number_toString isFinite v =
    JSON_stringify Number_toString isFinite (stableSortKeys v) ∧
  ∃ str, toPrettyJSON Number_toString isFinite v = Return (Some str).
Proof.
  intros Hjson.
  destruct (serialize_is_json "" (stableSortKeys v)) as [str Hstr];
    [by apply stableSortKeys_is_json|].
  assert (toPrettyJSON Number_toString isFinite v = Return (Some str)) as Heq.
  { destruct v; try done; unfold toPrettyJSON, JSON_stringify; by rewrite Hstr. }
  split; [by rewrite Heq|by eexists].
Qed.
End JsonFacts.

(** * Properties of the value tree renderer *)

Section TreeFacts.
Import Json Tree.
Context {num : Type}.
Variable Number_toString : num → string.
Variable JSON_parse : string → result (JsonValue num).
Variable defaultCollapsedDepth : Z.
Implicit Types (v : JsonValue num) (xs : list (JsonValue num))
  (props : list (string * JsonValue num)).

Local Abbreviation JsonNode := (Tree.JsonNode Number_toString).
Local Abbreviation nodes_ok level t :=
  (Forall (λ lt, policy_ok defaultCollapsedDepth lt.1 lt.2) (mounted_nodes level t)).

(** [String(value)] does not throw on a leaf. *)
Lemma String_leaf v :
  is_leaf v = true → ∃ str, String_ Number_toString v = Return str.
Proof. destruct v; try done; by eexists. Qed.

Lemma array_children_ok xs (level : nat) path i :
  Forall (λ v, ∀ name level path, nodes_ok level (JsonNode name v (Z.of_nat level) path defaultCollapsedDepth)) xs →
  Forall (λ lt, policy_ok defaultCollapsedDepth lt.1 lt.2)
    (array_children
       (λ i v, JsonNode None v (Z.of_nat level + 1)%Z (path +:+ "." +:+ pretty i)
                 defaultCollapsedDepth) i xs ≫= mounted_nodes (S level)).
Proof.
  intros Hxs. revert i. induction Hxs as [|x xs Hx _ IH]; intros i; [done|].
  cbn [array_children]. rewrite bind_cons. apply Forall_app. split; [|apply IH].
  replace (Z.of_nat level + 1)%Z with (Z.of_nat (S level)) by lia. apply Hx.
Qed.

Lemma object_children_ok props (level : nat) path :
  Forall (λ kv, ∀ name level path, nodes_ok level (JsonNode name kv.2 (Z.of_nat level) path defaultCollapsedDepth)) props →
  Forall (λ lt, policy_ok defaultCollapsedDepth lt.1 lt.2)
    (((λ kv, JsonNode (Some kv.1) kv.2 (Z.of_nat level + 1)%Z (path +:+ "." +:+ kv.1)
               defaultCollapsedDepth) <$> props) ≫= mounted_nodes (S level)).
Proof.
  induction 1 as [|[k x] props Hx _ IH]; [done|].
  rewrite fmap_cons, bind_cons. apply Forall_app. split; [|apply IH].
  replace (Z.of_nat level + 1)%Z with (Z.of_nat (S level)) by lia. apply Hx.
Qed.

Lemma container_policy (level : nat) path label (view : View Mounted) :
  is_container_view view = true →
  policy_ok defaultCollapsedDepth level
    (Mount (Z.of_nat level) path (true && (Z.of_nat level >=? defaultCollapsedDepth)%Z)
       label view).
Proof.
  intros Hview. split; [done|]. cbn. rewrite Hview.
  rewrite Z.geb_le. lia.
Qed.

(** Every node mounted by [JsonNode] carries its nesting depth in [depth]
    and starts collapsed exactly when it is a container at or beyond the
    configured depth. *)
Lemma JsonNode_policy v name (level : nat) path :
  nodes_ok level (JsonNode name v (Z.of_nat level) path defaultCollapsedDepth).
Proof.
  revert name level path.
  induction v as [v Hv|xs IH|props IH] using JsonValue_induction; intros name level path.
  - destruct v; try done; by repeat constructor.
  - cbn [Tree.JsonNode mounted_nodes mounted_view]. case_bool_decide.
    + constructor; [by apply container_policy|]. by apply array_children_ok.
    + constructor; [by apply container_policy|constructor].
  - cbn [Tree.JsonNode mounted_nodes mounted_view]. case_bool_decide.
    + constructor; [by apply container_policy|]. by apply object_children_ok.
    + constructor; [by apply container_policy|constructor].
Qed.
End TreeFacts.

(** * The claims of the specification *)

Section Claims.
Import Diff Split Json View Tree.

(** C1. The edit script of [computeOps] is valid for every pair of texts:
    replayed in order, the right lines of its context ops and the lines of
    its inserts are exactly the right line sequence; the left lines of its
    context ops and the lines of its deletes are exactly the left line
    sequence; and the two lines of every context op are equal. *)
Theorem computeOps_valid (leftText rightText : string) :
  let ops := computeOps leftText rightText in
  replay_right ops = Lines.split rightText ∧
  replay_left ops = Lines.split leftText ∧
  Forall context_ok ops.
Proof.
  cbn zeta. destruct (computeOps_script leftText rightText) as (Hl & Hr & Hc).
  by split_and!.
Qed.

(** C2. The edit script of [computeOps] has the least number of delete and
    insert ops among all valid edit scripts between the two line sequences,
    and the number of its context ops is the length of a longest common
    subsequence of the two; this holds of the engine on any two line
    sequences, and so of [computeOps] on the lines of any two texts. *)
Theorem computeOps_minimal :
  (∀ a b : list string,
     (∀ script, valid_script a b script → changes (diff_lines a b) ≤ changes script) ∧
     is_lcs_length a b (contexts (diff_lines a b))) ∧
  (∀ leftText rightText : string,
     let a := Lines.split leftText in
     let b := Lines.split rightText in
     let ops := computeOps leftText rightText in
     valid_script a b ops ∧
     (∀ script, valid_script a b script → changes ops ≤ changes script) ∧
     is_lcs_length a b (contexts ops)).
Proof.
  assert (∀ a b : list string,
     (∀ script, valid_script a b script → changes (diff_lines a b) ≤ changes script) ∧
     is_lcs_length a b (contexts (diff_lines a b))) as Hlines.
  { intros a b. rewrite diff_lines_spec. split.
    - intros script. apply spec_walk_minimal.
    - rewrite spec_walk_contexts. apply lcs_len_is_lcs_length. }
  split; [done|]. intros leftText rightText. cbn zeta. unfold computeOps.
  destruct (Hlines (Lines.split leftText) (Lines.split rightText)) as [Hmin Hlcs].
  split_and!; [|done..]. apply computeOps_script.
Qed.

(** C3. [computeOps] is the walk the specification prescribes. The table it
    fills holds at [lcs[i][j]] the LCS length of the suffixes [a[i:]] and
    [b[j:]], and its three loops produce the script of [spec_walk]: a context
    op on equal heads, else a delete exactly when [lcs[i+1][j] >= lcs[i][j+1]]
    and an insert otherwise, then the rest of [a] as deletes followed by the
    rest of [b] as inserts. The script is a function of the two texts. *)
Theorem computeOps_spec_walk (leftText rightText : string) :
  let a := Lines.split leftText in
  let b := Lines.split rightText in
  (∀ i j, i ≤ length a → j ≤ length b →
     get (build_table a b) i j = lcs_len (drop i a) (drop j b)) ∧
  computeOps leftText rightText = spec_walk a b.
Proof.
  cbn zeta. split.
  - intros i j. apply build_table_correct.
  - apply diff_lines_spec.
Qed.

(** C4. Normalisation does not depend on the order of keys. For every JSON
    value [v] and every value [w] that equals it up to the order of the keys
    of objects at any nesting level (arrays keeping their order),
    [toPrettyJSON] returns one and the same text for both. (It reads and
    writes no state, so repeated calls on one value agree as well.) *)
Theorem toPrettyJSON_key_order {num : Type} (Number_toString : num → string)
    (isFinite : num → bool) (v w : JsonValue num) :
  is_json v = true → same_up_to_key_order v w →
  ∃ text,
    toPrettyJSON Number_toString isFinite v = Return (Some text) ∧
    toPrettyJSON Number_toString isFinite w = Return (Some text).
Proof.
  intros Hv Hsame.
  destruct (toPrettyJSON_json Number_toString isFinite v Hv) as [Heq [text Htext]].
  exists text. split; [done|].
  assert (stableSortKeys w = stableSortKeys v) as Hsorted
    by (symmetry; by apply stableSortKeys_same).
  rewrite Heq in Htext.
  destruct w; try (by cbn in Hsorted; destruct v);
    unfold toPrettyJSON; by rewrite Hsorted, Htext.
Qed.

(** C5, as the specification states it, fails. With [undefined] on the left
    and the object with the one key [x] holding 1 on the right, the script
    deletes the empty left line and inserts the three right lines; its rows
    are a change row with the empty string on the left and two add rows with
    the empty string on the left. A change row is to carry a left text and
    an add row is to carry none, so under no reading of "carries a text" do
    these rows satisfy the invariant. *)
Lemma opsToSplitRows_fields_fail :
  let tp := toPrettyJSON IntegerNumbers.Number_toString IntegerNumbers.isFinite in
  let member := "  " +:+ IntegerNumbers.quoted "x" +:+ ": 1" in
  ∃ rightText,
    tp VUndefined = Return (Some "") ∧
    tp (VObj [("x", VNum 1%Z)]) = Return (Some rightText) ∧
    opsToSplitRows (computeOps "" rightText) =
      [Row.mk RChange (Some "") (Some "{"); Row.mk RAdd (Some "") (Some member);
       Row.mk RAdd (Some "") (Some "}")] ∧
    ¬ (∃ carries : option string → Prop,
         Forall (field_invariant carries) (opsToSplitRows (computeOps "" rightText))).
Proof.
  cbn zeta. eexists. split_and!; [reflexivity..|].
  match goal with
  | |- ¬ (∃ carries, Forall _ ?rows) =>
      assert (∃ right1 right2 rest,
                rows = Row.mk RChange (Some "") right1 :: Row.mk RAdd (Some "") right2 :: rest)
        as (right1 & right2 & rest & ->) by (do 3 eexists; reflexivity)
  end.
  intros [carries Hrows].
  apply Forall_cons in Hrows as [[Hchange _] [[Hadd _] _]%Forall_cons].
  cbn in Hchange, Hadd. by apply Hadd.
Qed.

(** C5, amended. Every row of [opsToSplitRows] on a script of [computeOps]
    has both its fields set, and the side without a line holds the empty
    string: a change row holds a left and a right text, either of which may
    be the empty string; an add row holds the empty string on the left and
    its text on the right; a del row holds its text on the left and the
    empty string on the right; a context row holds the same text on both
    sides. The same holds on any script whose context ops have equal
    sides. *)
Theorem opsToSplitRows_fields :
  (∀ leftText rightText : string,
     Forall row_fields (opsToSplitRows (computeOps leftText rightText))) ∧
  (∀ ops, Forall context_ok ops → Forall row_fields (opsToSplitRows ops)).
Proof.
  split; [|apply opsToSplitRows_row_fields].
  intros leftText rightText. apply opsToSplitRows_row_fields.
  by destruct (computeOps_script leftText rightText) as (_ & _ & ?).
Qed.

(** C6. Coalescing. An insert that follows a del row whose right side is
    empty is stored into that row, which becomes a change row with both sides
    filled; any other insert becomes a new add row; and in the rows of every
    script no del row with an empty right side is directly followed by an
    add row. *)
Theorem opsToSplitRows_coalescing (ops : list Op) :
  (∀ right rows prev,
     opsToSplitRows ops = rows ++ [prev] → open_del prev = true →
     opsToSplitRows (ops ++ [OpAdd right]) =
       rows ++ [Row.mk RChange (Row.left prev) (Some right)]) ∧
  (∀ right,
     (∀ prev, last (opsToSplitRows ops) = Some prev → open_del prev = false) →
     opsToSplitRows (ops ++ [OpAdd right]) =
       opsToSplitRows ops ++ [Row.mk RAdd (Some "") (Some right)]) ∧
  coalesced (opsToSplitRows ops).
Proof.
  split_and!.
  - intros right rows prev Hrows Hopen.
    rewrite opsToSplitRows_snoc, Hrows. by apply push_add_merge.
  - intros right Hclosed. rewrite opsToSplitRows_snoc. by apply push_add_new.
  - apply opsToSplitRows_coalesced.
Qed.

(** C10. The split projection keeps the lines of the script and their order:
    the left texts of the context, del and change rows, in row order, are the
    left lines of the context and delete ops in script order, and the right
    texts of the context, add and change rows are the right lines of the
    context and insert ops. *)
Theorem opsToSplitRows_lines (ops : list Op) :
  rows_left (opsToSplitRows ops) = replay_left ops ∧
  rows_right (opsToSplitRows ops) = replay_right ops.
Proof. split; [apply opsToSplitRows_left|apply opsToSplitRows_right]. Qed.

(** C4, at two orderings of an object with the keys [a] and [b]. *)
Lemma toPrettyJSON_key_order_witness :
  ∃ text,
    toPrettyJSON IntegerNumbers.Number_toString IntegerNumbers.isFinite
      (VObj [("b", VNum 2%Z); ("a", VNum 1%Z)]) = Return (Some text) ∧
    toPrettyJSON IntegerNumbers.Number_toString IntegerNumbers.isFinite
      (VObj [("a", VNum 1%Z); ("b", VNum 2%Z)]) = Return (Some text).
Proof.
  apply (toPrettyJSON_key_order IntegerNumbers.Number_toString IntegerNumbers.isFinite).
  - reflexivity.
  - apply same_obj.
    + compute_done.
    + compute_done.
    + apply perm_swap.
    + intros k Hk. cbn in Hk.
      apply elem_of_cons in Hk as [->|Hk]; [by apply same_leaf|].
      apply elem_of_cons in Hk as [->|Hk]; [by apply same_leaf|].
      by apply elem_of_nil in Hk.
Defined.

(** C7, as the specification states it, fails: with [undefined] on the left
    and the object with the one key [x] holding 1 on the right, the edit
    script is not a single insert and the unified view is not a single
    line. *)
Lemma scenario_undefined_left_not_one_insert :
  let left : JsonValue Z := VUndefined in
  let right := VObj [("x", VNum 1%Z)] in
  let tp := toPrettyJSON IntegerNumbers.Number_toString IntegerNumbers.isFinite in
  ¬ ((∃ line,
        (leftText ←ᵣ tp left; rightText ←ᵣ tp right; computeOps_of leftText rightText)
        = Return [OpAdd line]) ∨
     (∃ line title summary,
        DiffView IntegerNumbers.Number_toString IntegerNumbers.isFinite
          title left right (Some ModeUnified)
        = Return (mkRendered title summary (UnifiedBody [line])))).
Proof.
  cbn zeta. intros [[line Hops]|(line & title & summary & Hview)].
  - vm_compute in Hops. discriminate Hops.
  - unfold DiffView in Hview. vm_compute in Hview. discriminate Hview.
Qed.

(** C7, amended. With [undefined] on the left and the object with the one
    key [x] holding 1 on the right, the normalised left text is the empty
    string, which splits to a single empty line; the normalised right text
    is the three lines of the pretty-printed object; the edit script is the
    delete of the empty left line followed by the inserts of the three right
    lines; and the unified view shows four lines, the deleted empty line and
    the three inserted ones. *)
Theorem scenario_undefined_left (title : string) :
  let left : JsonValue Z := VUndefined in
  let right := VObj [("x", VNum 1%Z)] in
  let tp := toPrettyJSON IntegerNumbers.Number_toString IntegerNumbers.isFinite in
  let member := "  " +:+ IntegerNumbers.quoted "x" +:+ ": 1" in
  tp left = Return (Some "") ∧
  Lines.split "" = [""] ∧
  (∃ rightText,
     tp right = Return (Some rightText) ∧
     Lines.split rightText = ["{"; member; "}"] ∧
     computeOps "" rightText = [OpDel ""; OpAdd "{"; OpAdd member; OpAdd "}"]) ∧
  DiffView IntegerNumbers.Number_toString IntegerNumbers.isFinite
    title left right (Some ModeUnified)
  = Return (mkRendered title "changes"
      (UnifiedBody ["- "; "+ {"; "+ " +:+ member; "+ }"])).
Proof.
  cbn zeta. split_and!; [reflexivity..| |].
  - eexists. split_and!; reflexivity.
  - reflexivity.
Qed.



End Claims.

(** * Further properties of the line diff engine *)

Section DiffMore.
Import Diff Split Json Further.

Lemma split_nonempty s : Lines.split s ≠ [].
Proof. destruct s as [|c s]; [done|]. cbn. case_decide; [done|]. by destruct (Lines.split s). Qed.

Lemma concat_cons sep (l : string) ls :
  ls ≠ [] → String.concat sep (l :: ls) = l +:+ sep +:+ String.concat sep ls.
Proof. by destruct ls. Qed.

(** Joining the lines of a text with line feeds gives the text back. *)
Lemma join_split s : join_lines (Lines.split s) = s.
Proof.
  unfold join_lines. induction s as [|c s IH]; [done|].
  cbn [Lines.split]. case_decide as Hc.
  - rewrite concat_cons by apply split_nonempty. rewrite IH. by subst c.
  - pose proof (split_nonempty s) as Hne.
    destruct (Lines.split s) as [|l ls]; [done|].
    destruct ls as [|l' ls].
    + cbn in *. by rewrite IH.
    + rewrite concat_cons by done. rewrite concat_cons in IH by done.
      by rewrite <-IH.
Qed.

Lemma split_inj s1 s2 : Lines.split s1 = Lines.split s2 → s1 = s2.
Proof. intros H. by rewrite <-(join_split s1), <-(join_split s2), H. Qed.

(** X1. Neither text loses a character in the script: the left lines of the
    context and delete ops of [computeOps(leftText, rightText)], joined with
    line feeds, are [leftText], and the right lines of its context and
    insert ops, joined the same way, are [rightText]. *)
Theorem computeOps_texts (leftText rightText : string) :
  join_lines (replay_left (computeOps leftText rightText)) = leftText ∧
  join_lines (replay_right (computeOps leftText rightText)) = rightText.
Proof.
  destruct (computeOps_script leftText rightText) as (-> & -> & _).
  split; apply join_split.
Qed.

Lemma spec_walk_refl a : spec_walk a a = all_context a.
Proof.
  induction a as [|x a IH]; [done|].
  rewrite spec_walk_cons, decide_True by done. by rewrite IH.
Qed.

Lemma hasChanges_all_context ls : hasChanges (all_context ls) = false.
Proof. by induction ls. Qed.

Lemma no_changes_replay ops :
  Forall context_ok ops → hasChanges ops = false → replay_left ops = replay_right ops.
Proof.
  induction 1 as [|op ops Hop _ IH]; [done|].
  cbn [hasChanges existsb]. intros [Hhd Htl]%orb_false_elim.
  rewrite replay_left_cons, replay_right_cons, (IH Htl).
  destruct op; cbn in *; by subst.
Qed.

Lemma computeOps_refl text : computeOps text text = all_context (Lines.split text).
Proof. unfold computeOps. by rewrite diff_lines_spec, spec_walk_refl. Qed.

Lemma hasChanges_computeOps leftText rightText :
  hasChanges (computeOps leftText rightText) = false ↔ leftText = rightText.
Proof.
  split.
  - intros Hnone. destruct (computeOps_script leftText rightText) as (Hl & Hr & Hc).
    apply split_inj. rewrite <-Hl, <-Hr. by apply no_changes_replay.
  - intros <-. rewrite computeOps_refl. apply hasChanges_all_context.
Qed.

(** X2. The script of [computeOps] has no delete and no insert exactly when
    the two texts are equal, and it is then one context op per line; so the
    summary of the diff view reads "no changes" exactly on equal normalised
    texts. *)
Theorem computeOps_no_changes (leftText rightText : string) :
  (hasChanges (computeOps leftText rightText) = false ↔ leftText = rightText) ∧
  computeOps leftText leftText = all_context (Lines.split leftText).
Proof. split; [apply hasChanges_computeOps|apply computeOps_refl]. Qed.

Lemma length_contexts_changes ops : length ops = contexts ops + changes ops.
Proof.
  induction ops as [|op ops IH]; [done|].
  rewrite contexts_cons, changes_cons. cbn [length]. destruct (is_change op); lia.
Qed.

Lemma lcs_len_le a b : lcs_len a b ≤ length a ∧ lcs_len a b ≤ length b.
Proof.
  destruct (lcs_len_attained a b) as (s & Ha & Hb & <-).
  split; by apply sublist_length.
Qed.

(** X3. The script of [computeOps] on texts of [m] and [n] lines has
    [m + n] minus the number of its context ops many ops, hence at least
    [max m n] and at most [m + n]. *)
Theorem computeOps_length (leftText rightText : string) :
  let m := length (Lines.split leftText) in
  let n := length (Lines.split rightText) in
  let ops := computeOps leftText rightText in
  length ops + contexts ops = m + n ∧ Nat.max m n ≤ length ops ≤ m + n.
Proof.
  cbn zeta. pose proof (replay_lengths (computeOps leftText rightText)) as Hlen.
  destruct (computeOps_script leftText rightText) as (Hl & Hr & _).
  rewrite Hl, Hr in Hlen.
  pose proof (length_contexts_changes (computeOps leftText rightText)) as Hsum.
  assert (contexts (computeOps leftText rightText) =
          lcs_len (Lines.split leftText) (Lines.split rightText)) as Hctx.
  { unfold computeOps. by rewrite diff_lines_spec, spec_walk_contexts. }
  pose proof (lcs_len_le (Lines.split leftText) (Lines.split rightText)) as [? ?].
  lia.
Qed.

(** *** Deletes come before inserts *)

Lemma lcs_len_skip_r a y b : lcs_len a b ≤ lcs_len a (y :: b).
Proof.
  destruct (lcs_len_attained a b) as (s & Ha & Hb & <-).
  apply lcs_len_upper; [done|by apply sublist_cons].
Qed.

Lemma lcs_len_skip_l x a b : lcs_len a b ≤ lcs_len (x :: a) b.
Proof.
  destruct (lcs_len_attained a b) as (s & Ha & Hb & <-).
  apply lcs_len_upper; [by apply sublist_cons|done].
Qed.

Lemma no_add_then_del_cons op ops :
  (∀ r l, op = OpAdd r → head ops = Some (OpDel l) → False) →
  no_add_then_del ops → no_add_then_del (op :: ops).
Proof.
  intros Hhd Htl [|i] r l H1 H2.
  - cbn in H1, H2. injection H1 as ->. apply (Hhd r l); [done|]. by rewrite head_lookup.
  - apply (Htl i r l); [done|]. by rewrite Nat.add_1_r in *.
Qed.

Lemma no_add_then_del_adds b : no_add_then_del (OpAdd <$> b).
Proof.
  intros i r l _ H. rewrite list_lookup_fmap in H.
  by destruct (b !! (i + 1)).
Qed.

Lemma no_add_then_del_dels a : no_add_then_del (OpDel <$> a).
Proof.
  intros i r l H _. rewrite list_lookup_fmap in H.
  by destruct (a !! i).
Qed.

(** After an insert the walk does not delete: the insert was chosen because
    skipping the right line keeps a longer common subsequence, and it still
    does one line later. *)
Lemma spec_walk_after_add x a y b l :
  lcs_len a (y :: b) < lcs_len (x :: a) b →
  head (spec_walk (x :: a) b) ≠ Some (OpDel l).
Proof.
  intros Hlt. destruct b as [|z b].
  { rewrite lcs_len_nil_r in Hlt. lia. }
  rewrite spec_walk_cons. rewrite lcs_len_cons in Hlt.
  pose proof (lcs_len_skip_r a y (z :: b)).
  repeat case_decide; try done. lia.
Qed.

Lemma spec_walk_no_add_then_del a b : no_add_then_del (spec_walk a b).
Proof.
  revert b. induction a as [|x a IHa]; intros b; [apply no_add_then_del_adds|].
  induction b as [|y b IHb]; [rewrite spec_walk_nil_r; apply no_add_then_del_dels|].
  rewrite spec_walk_cons. repeat case_decide.
  - by apply no_add_then_del_cons.
  - by apply no_add_then_del_cons.
  - apply no_add_then_del_cons; [|done].
    intros r l _ Hhd. apply (spec_walk_after_add x a y b l); [lia|exact Hhd].
Qed.

(** X4. In the script of [computeOps] an insert is never directly followed
    by a delete: within a run of changes every delete comes before every
    insert, which is what lets the split projection pair them. *)
Theorem computeOps_dels_before_adds (leftText rightText : string) :
  no_add_then_del (computeOps leftText rightText).
Proof. unfold computeOps. rewrite diff_lines_spec. apply spec_walk_no_add_then_del. Qed.

(** *** The table *)

Lemma lcs_len_step_l x a b : lcs_len (x :: a) b ≤ lcs_len a b + 1.
Proof.
  destruct (lcs_len_attained (x :: a) b) as (s & Ha & Hb & <-).
  apply sublist_cons_r in Ha as [Ha|(s' & -> & Ha)].
  - pose proof (lcs_len_upper s a b Ha Hb). lia.
  - apply sublist_tail in Hb. pose proof (lcs_len_upper s' a b Ha Hb). cbn [length]. lia.
Qed.

Lemma lcs_len_step_r a y b : lcs_len a (y :: b) ≤ lcs_len a b + 1.
Proof.
  destruct (lcs_len_attained a (y :: b)) as (s & Ha & Hb & <-).
  apply sublist_cons_r in Hb as [Hb|(s' & -> & Hb)].
  - pose proof (lcs_len_upper s a b Ha Hb). lia.
  - apply sublist_tail in Ha. pose proof (lcs_len_upper s' a b Ha Hb). cbn [length]. lia.
Qed.

(** X5. The table [computeOps] fills is a staircase: the entry at [(i, j)]
    is at most the number of lines left on either side, and moving one row
    or one column towards the end lowers an entry by at most one and never
    raises it. *)
Theorem build_table_staircase (a b : list string) (i j : nat) :
  i ≤ length a → j ≤ length b →
  let lcs := build_table a b in
  get lcs i j ≤ Nat.min (length a - i) (length b - j) ∧
  (i < length a → get lcs (i + 1) j ≤ get lcs i j ≤ get lcs (i + 1) j + 1) ∧
  (j < length b → get lcs i (j + 1) ≤ get lcs i j ≤ get lcs i (j + 1) + 1).
Proof.
  intros Hi Hj. cbn zeta. rewrite build_table_correct by done. split_and!.
  - pose proof (lcs_len_le (drop i a) (drop j b)) as [H1 H2].
    rewrite !length_drop in *. lia.
  - intros Hlt. rewrite build_table_correct by lia.
    rewrite (drop_lookup_total a i) by done.
    split; [apply lcs_len_skip_l|apply lcs_len_step_l].
  - intros Hlt. rewrite build_table_correct by lia.
    rewrite (drop_lookup_total b j) by done.
    split; [apply lcs_len_skip_r|apply lcs_len_step_r].
Qed.

Lemma build_table_staircase_witness :
  let lcs := build_table ["a"; "b"] ["b"; "c"] in
  get lcs 0 0 ≤ Nat.min (2 - 0) (2 - 0) ∧
  (0 < 2 → get lcs (0 + 1) 0 ≤ get lcs 0 0 ≤ get lcs (0 + 1) 0 + 1) ∧
  (0 < 2 → get lcs 0 (0 + 1) ≤ get lcs 0 0 ≤ get lcs 0 (0 + 1) + 1).
Proof. apply (build_table_staircase ["a"; "b"] ["b"; "c"] 0 0); cbn; lia. Defined.

Lemma lcs_len_sym a b : lcs_len a b = lcs_len b a.
Proof.
  apply Nat.le_antisymm.
  - destruct (lcs_len_attained a b) as (s & Ha & Hb & <-). by apply lcs_len_upper.
  - destruct (lcs_len_attained b a) as (s & Hb & Ha & <-). by apply lcs_len_upper.
Qed.

(** X6. Swapping the two texts changes neither the number of context ops of
    the script nor its number of delete and insert ops. *)
Theorem computeOps_swap (leftText rightText : string) :
  contexts (computeOps leftText rightText) = contexts (computeOps rightText leftText) ∧
  changes (computeOps leftText rightText) = changes (computeOps rightText leftText).
Proof.
  assert (∀ l r, contexts (computeOps l r) = lcs_len (Lines.split l) (Lines.split r)) as Hctx.
  { intros l r. unfold computeOps. by rewrite diff_lines_spec, spec_walk_contexts. }
  pose proof (replay_lengths (computeOps leftText rightText)) as H1.
  pose proof (replay_lengths (computeOps rightText leftText)) as H2.
  destruct (computeOps_script leftText rightText) as (Hl1 & Hr1 & _).
  destruct (computeOps_script rightText leftText) as (Hl2 & Hr2 & _).
  rewrite Hl1, Hr1 in H1. rewrite Hl2, Hr2 in H2.
  rewrite !Hctx in *. rewrite (lcs_len_sym (Lines.split rightText)) in *. lia.
Qed.
End DiffMore.

(** * Further properties of the diff projector *)

Section SplitMore.
Import Diff Split Further.

Lemma push_op_nonempty rows op : push_op rows op ≠ [].
Proof.
  destruct op as [l r|l|r]; [by destruct rows..|].
  destruct (push_add_cases rows r) as [(rows' & prev & -> & _ & ->)|[_ ->]];
    intros H; by apply app_eq_nil in H as [_ ?].
Qed.

(** Only the last row is looked at: rows further up are carried along. *)
Lemma push_op_app acc rows op :
  rows ≠ [] → push_op (acc ++ rows) op = acc ++ push_op rows op.
Proof.
  intros Hne. destruct op as [l r|l|r]; cbn [push_op]; [by rewrite app_assoc..|].
  rewrite last_app. destruct (last rows) as [prev|] eqn:Hlast.
  - destruct (open_del prev); [|by rewrite app_assoc].
    assert (0 < length rows) by (destruct rows; [done|cbn; lia]).
    rewrite insert_app_r_alt by (rewrite length_app; lia).
    do 2 f_equal. rewrite length_app. lia.
  - by apply last_None in Hlast.
Qed.

Lemma foldl_push_op_app acc rows ops :
  rows ≠ [] → foldl push_op (acc ++ rows) ops = acc ++ foldl push_op rows ops.
Proof.
  revert rows. induction ops as [|op ops IH]; intros rows Hne; [done|].
  cbn. rewrite push_op_app by done. apply IH, push_op_nonempty.
Qed.

(** X7. The split projection is local. Cutting a script at a point where
    the second part does not begin with an insert, or where the rows of the
    first part do not end in a del row with an empty right side, gives the
    rows of the first part followed by the rows of the second: the one-step
    lookback never reaches across such a cut. *)
Theorem opsToSplitRows_app (ops1 ops2 : list Op) :
  starts_closed ops2 ∨
    (∀ prev, last (opsToSplitRows ops1) = Some prev → open_del prev = false) →
  opsToSplitRows (ops1 ++ ops2) = opsToSplitRows ops1 ++ opsToSplitRows ops2.
Proof.
  intros Hcut. unfold opsToSplitRows at 1. rewrite foldl_app.
  fold (opsToSplitRows ops1). destruct ops2 as [|op ops2]; [by rewrite app_nil_r|].
  unfold opsToSplitRows at 2. cbn [foldl].
  assert (push_op (opsToSplitRows ops1) op = opsToSplitRows ops1 ++ push_op [] op) as ->.
  { destruct op as [l r|l|r]; [done..|].
    destruct Hcut as [[]|Hclosed]. by rewrite push_add_new. }
  apply foldl_push_op_app, push_op_nonempty.
Qed.

Lemma opsToSplitRows_app_witness :
  opsToSplitRows ([OpDel "a"] ++ [OpContext "b" "b"; OpAdd "c"]) =
  opsToSplitRows [OpDel "a"] ++ opsToSplitRows [OpContext "b" "b"; OpAdd "c"].
Proof. apply opsToSplitRows_app. left. exact I. Defined.

Lemma foldl_push_dels rows ds :
  foldl push_op rows (OpDel <$> ds) = rows ++ (del_row <$> ds).
Proof.
  revert rows. induction ds as [|d ds IH]; intros rows; [by rewrite app_nil_r|].
  cbn. rewrite IH. by rewrite <-app_assoc.
Qed.

Lemma foldl_push_adds rows xs :
  (∀ prev, last rows = Some prev → open_del prev = false) →
  foldl push_op rows (OpAdd <$> xs) = rows ++ (add_row <$> xs).
Proof.
  revert rows. induction xs as [|x xs IH]; intros rows Hclosed; [by rewrite app_nil_r|].
  rewrite fmap_cons. cbn [foldl]. rewrite push_add_new by done.
  rewrite IH; [by rewrite <-app_assoc|].
  intros prev. rewrite last_snoc. by intros [= <-].
Qed.

(** X8. A run of deletes followed by a run of inserts becomes a del row for
    every delete but the last, one change row that pairs the last delete
    with the first insert, and an add row for every insert but the first. *)
Theorem opsToSplitRows_block (ds : list string) (d x : string) (xs : list string) :
  opsToSplitRows ((OpDel <$> ds) ++ [OpDel d] ++ [OpAdd x] ++ (OpAdd <$> xs)) =
  (del_row <$> ds) ++ [Row.mk RChange (Some d) (Some x)] ++ (add_row <$> xs).
Proof.
  unfold opsToSplitRows. rewrite foldl_app, foldl_push_dels. cbn [app foldl].
  change (push_op (del_row <$> ds) (OpDel d)) with ((del_row <$> ds) ++ [del_row d]).
  rewrite push_add_merge by done.
  rewrite foldl_push_adds; [by rewrite <-app_assoc|].
  intros prev. rewrite last_snoc. by intros [= <-].
Qed.

Lemma change_rows_snoc rows r :
  change_rows (rows ++ [r]) =
  change_rows rows + (if decide (Row.type r = RChange) then 1 else 0).
Proof.
  unfold change_rows. rewrite filter_app, length_app. f_equal.
  rewrite filter_cons. by case_decide.
Qed.

Lemma rows_have_changes_snoc rows r :
  rows_have_changes (rows ++ [r]) =
  rows_have_changes rows || bool_decide (Row.type r ≠ RContext).
Proof. unfold rows_have_changes. rewrite existsb_app. cbn. by rewrite orb_false_r. Qed.

Lemma hasChanges_snoc ops op : hasChanges (ops ++ [op]) = hasChanges ops || is_change op.
Proof. unfold hasChanges. rewrite existsb_app. cbn. by rewrite orb_false_r. Qed.

(** X9. The split projection has one row per op, less one for every change
    row (a change row stands for a delete and an insert); and it has a row
    that is not a context row exactly when the script has an op that is not
    a context op. *)
Theorem opsToSplitRows_count (ops : list Op) :
  length (opsToSplitRows ops) + change_rows (opsToSplitRows ops) = length ops ∧
  rows_have_changes (opsToSplitRows ops) = hasChanges ops.
Proof.
  induction ops as [|op ops [IHlen IHany]] using rev_ind; [done|].
  rewrite opsToSplitRows_snoc, hasChanges_snoc, <-IHany, length_app. cbn [length].
  destruct op as [l r|l|r]; cbn [is_change].
  - cbn [push_op].
    rewrite length_app, change_rows_snoc, rows_have_changes_snoc. cbn [length Row.type].
    rewrite decide_False, bool_decide_false by naive_solver. split; [lia|done].
  - cbn [push_op].
    rewrite length_app, change_rows_snoc, rows_have_changes_snoc. cbn [length Row.type].
    rewrite decide_False, bool_decide_true by done. split; [lia|done].
  - destruct (push_add_cases (opsToSplitRows ops) r)
      as [(rows' & prev & Hrows & Hopen & ->)|[_ ->]].
    + rewrite Hrows in *. pose proof (open_del_type _ Hopen) as Hdel.
      rewrite !length_app, !change_rows_snoc, !rows_have_changes_snoc in *.
      cbn [length Row.type promote] in *. rewrite Hdel in *.
      rewrite decide_False in IHlen by done.
      rewrite decide_True, !bool_decide_true by done. split; [lia|].
      by rewrite !orb_true_r.
    + rewrite length_app, change_rows_snoc, rows_have_changes_snoc. cbn [length Row.type].
      rewrite decide_False, bool_decide_true by done. split; [lia|done].
Qed.
End SplitMore.

(** * Further properties of the value normaliser *)

Section JsonMore.
Import Diff Split Json View Further.
Context {num : Type}.
Variable Number_toString : num → string.
Variable isFinite : num → bool.
Implicit Types (v w : JsonValue num) (xs : list (JsonValue num))
  (props ps qs out acc : list (string * JsonValue num)) (f : string → JsonValue num).

Local Abbreviation build f acc L := (foldl (λ out key, obj_set out key (f key)) acc L).
Local Abbreviation own k := (k ≠ "__proto__").

Lemma keys_obj_insert_index out n k v : keys (obj_insert_index out n k v) ≡ₚ k :: keys out.
Proof.
  induction out as [|[k' w] out IH]; [done|].
  cbn [obj_insert_index]. destruct (array_index k') as [n'|]; [case_decide|]; try done.
  cbn. unfold keys in IH. rewrite IH. apply perm_swap.
Qed.

Lemma obj_get_obj_insert_index out n k v k' :
  k ∉ keys out →
  obj_get (obj_insert_index out n k v) k' = if decide (k = k') then v else obj_get out k'.
Proof.
  induction out as [|[k0 w] out IH]; intros Hk; [done|].
  assert (k ≠ k0 ∧ k ∉ keys out) as [Hne Hk'] by (by apply not_elem_of_cons in Hk).
  cbn [obj_insert_index].
  destruct (array_index k0) as [n'|]; [destruct (decide (n' < n)%N)|]; [|done..].
  cbn [obj_get]. rewrite (IH Hk').
  destruct (decide (k0 = k')), (decide (k = k')); congruence.
Qed.

Lemma obj_get_snoc out k v k' :
  k ∉ keys out →
  obj_get (out ++ [(k, v)]) k' = if decide (k = k') then v else obj_get out k'.
Proof.
  induction out as [|[k0 w] out IH]; intros Hk; [done|].
  assert (k ≠ k0 ∧ k ∉ keys out) as [Hne Hk'] by (by apply not_elem_of_cons in Hk).
  cbn [app obj_get]. rewrite (IH Hk').
  destruct (decide (k0 = k')), (decide (k = k')); congruence.
Qed.

Lemma keys_obj_set out k v :
  own k → k ∉ keys out → keys (obj_set out k v) ≡ₚ k :: keys out.
Proof.
  intros Hown Hk. unfold obj_set. rewrite !decide_False by done.
  destruct (array_index k); [apply keys_obj_insert_index|].
  unfold keys. rewrite fmap_app. symmetry. apply (Permutation_cons_append (out.*1) k).
Qed.

Lemma obj_get_obj_set out k v k' :
  own k → k ∉ keys out →
  obj_get (obj_set out k v) k' = if decide (k = k') then v else obj_get out k'.
Proof.
  intros Hown Hk. unfold obj_set. rewrite !decide_False by done.
  destruct (array_index k); [by apply obj_get_obj_insert_index|by apply obj_get_snoc].
Qed.

Lemma build_own f acc L : build f acc L = build f acc (filter (λ k, own k) L).
Proof.
  revert acc. induction L as [|k L IH]; intros acc; [done|].
  rewrite filter_cons. case_decide as Hk; cbn [foldl]; [apply IH|].
  subst k. by rewrite <-IH.
Qed.

Lemma build_keys f acc L :
  NoDup L → Forall (λ k, own k) L → (∀ k, k ∈ L → k ∉ keys acc) →
  keys (build f acc L) ≡ₚ L ++ keys acc.
Proof.
  revert acc. induction L as [|k L IH]; intros acc Hnd Hown Hacc; [done|].
  apply NoDup_cons in Hnd as [Hk Hnd]. apply Forall_cons in Hown as [Hk' Hown].
  assert (keys (obj_set acc k (f k)) ≡ₚ k :: keys acc) as Hkeys
    by (apply keys_obj_set; [done|apply Hacc; by left]).
  cbn [foldl]. rewrite IH; [|done..|].
  - rewrite Hkeys. cbn. by rewrite Permutation_middle.
  - intros k0 Hk0. rewrite Hkeys. apply not_elem_of_cons. split; [by intros ->|].
    apply Hacc. by right.
Qed.

Lemma build_get f acc L k' :
  NoDup L → Forall (λ k, own k) L → (∀ k, k ∈ L → k ∉ keys acc) →
  obj_get (build f acc L) k' = if decide (k' ∈ L) then f k' else obj_get acc k'.
Proof.
  revert acc. induction L as [|k L IH]; intros acc Hnd Hown Hacc.
  { cbn. by rewrite decide_False by apply not_elem_of_nil. }
  apply NoDup_cons in Hnd as [Hk Hnd]. apply Forall_cons in Hown as [Hk' Hown].
  assert (keys (obj_set acc k (f k)) ≡ₚ k :: keys acc) as Hkeys
    by (apply keys_obj_set; [done|apply Hacc; by left]).
  cbn [foldl]. rewrite IH; [|done..|].
  - rewrite obj_get_obj_set by (done || apply Hacc; by left).
    destruct (decide (k' ∈ L)) as [HL|HL], (decide (k = k')) as [Heq|Hkk],
      (decide (k' ∈ k :: L)) as [Hc|Hc]; subst; try done;
      first [exfalso; apply Hc; by (left + right)
            |by apply elem_of_cons in Hc as [->|?]].
  - intros k0 Hk0. rewrite Hkeys. apply not_elem_of_cons. split; [by intros ->|].
    apply Hacc. by right.
Qed.

(** The keys and the lookups of the object [stableSortKeys] builds. *)
Lemma stableSortKeys_obj_spec ps :
  NoDup (keys ps) →
  ∃ out, stableSortKeys (VObj ps) = VObj out ∧
    out = build (λ k, stableSortKeys (obj_get ps k)) [] (filter (λ k, own k) (sort (keys ps))) ∧
    NoDup (keys out) ∧
    keys out ≡ₚ filter (λ k, own k) (keys ps) ∧
    (∀ k, own k → obj_get out k = stableSortKeys (obj_get ps k)) ∧
    obj_get out "__proto__" = VUndefined.
Proof.
  intros Hnd. eexists. split; [rewrite stableSortKeys_obj; by rewrite build_own|].
  split; [done|].
  set (L := filter (λ k, own k) (sort (keys ps))).
  assert (sort (keys ps) ≡ₚ keys ps) as Hsort by apply merge_sort_Permutation.
  assert (NoDup L) as HndL by (apply NoDup_filter; by rewrite Hsort).
  assert (Forall (λ k, own k) L) as Hown
    by (apply Forall_forall; intros k Hk; by apply list_elem_of_filter in Hk as [? _]).
  assert (L ≡ₚ filter (λ k, own k) (keys ps)) as HL by (unfold L; by rewrite Hsort).
  assert (∀ k, k ∈ L → k ∉ keys (@nil (string * JsonValue num))) as Hacc
    by (intros k _; apply not_elem_of_nil).
  pose proof (build_keys (λ k, stableSortKeys (obj_get ps k)) [] L HndL Hown Hacc) as Hkeys.
  rewrite app_nil_r in Hkeys. split_and!.
  - by rewrite Hkeys.
  - by rewrite Hkeys.
  - intros k Hk. rewrite build_get by done. case_decide as HkL; [done|].
    cbn. assert (k ∉ keys ps) as Hnot.
    { intros Hin. apply HkL. rewrite HL. by apply list_elem_of_filter. }
    clear -Hnot. induction ps as [|[k0 x] ps IH]; [done|].
    apply not_elem_of_cons in Hnot as [Hne Hnot]. cbn in Hne. cbn.
    rewrite decide_False by done. by apply IH.
  - rewrite build_get by done. rewrite decide_False; [done|].
    intros Hin. rewrite Forall_forall in Hown. by apply (Hown _ Hin).
Qed.

(** X10. [stableSortKeys] keeps the properties of an object, except one
    named [__proto__]: the result has each other key of the object exactly
    once, every such key holds the normalised form of the value it held, and
    a property named [__proto__] is gone (storing to that key of the fresh
    object runs the inherited setter and creates no property). *)
Theorem stableSortKeys_properties (props : list (string * JsonValue num)) :
  NoDup (keys props) →
  ∃ out, stableSortKeys (VObj props) = VObj out ∧
    NoDup (keys out) ∧
    keys out ≡ₚ filter (λ k, k ≠ "__proto__") (keys props) ∧
    (∀ k, k ≠ "__proto__" → obj_get out k = stableSortKeys (obj_get props k)) ∧
    obj_get out "__proto__" = VUndefined.
Proof.
  intros Hnd. destruct (stableSortKeys_obj_spec props Hnd) as (out & ? & _ & ? & ? & ? & ?).
  by exists out.
Qed.

Lemma StronglySorted_filter {A} (R : relation A) (P : A → Prop)
    `{∀ x, Decision (P x)} (l : list A) :
  StronglySorted R l → StronglySorted R (filter P l).
Proof.
  induction 1 as [|x l Hl IH Hx]; [constructor|].
  rewrite filter_cons. case_decide; [|done]. constructor; [done|].
  apply Forall_forall. intros y [_ Hy]%list_elem_of_filter.
  rewrite Forall_forall in Hx. by apply Hx.
Qed.

Lemma well_formed_arr xs :
  well_formed (VArr xs) = true ↔ Forall (λ x, well_formed x = true) xs.
Proof. cbn. rewrite forallb_forall, Forall_forall. by setoid_rewrite list_elem_of_In. Qed.

Lemma well_formed_obj ps :
  well_formed (VObj ps) = true ↔
  NoDup (keys ps) ∧ Forall (λ kv, well_formed kv.2 = true) ps.
Proof.
  cbn. rewrite andb_true_iff, bool_decide_eq_true, forallb_forall, Forall_forall.
  by setoid_rewrite list_elem_of_In.
Qed.

Lemma stableSortKeys_idem v :
  well_formed v = true → stableSortKeys (stableSortKeys v) = stableSortKeys v.
Proof.
  induction v as [v Hv|xs IH|ps IH] using JsonValue_induction; intros Hwf.
  - by destruct v.
  - apply well_formed_arr in Hwf. cbn [stableSortKeys]. f_equal.
    rewrite <-list_fmap_compose. apply Forall_fmap_ext_1.
    by apply (Forall_mp _ _ _ IH).
  - apply well_formed_obj in Hwf as [Hnd Hwf].
    destruct (stableSortKeys_obj_spec ps Hnd) as (out & -> & Hout & Hnd' & Hkeys & Hget & _).
    rewrite stableSortKeys_obj. f_equal.
    set (L := filter (λ k, k ≠ "__proto__") (sort (keys ps))) in *.
    assert (sort (keys out) = L) as ->.
    { apply (StronglySorted_unique String.le).
      - apply StronglySorted_merge_sort; apply _.
      - apply StronglySorted_filter, StronglySorted_merge_sort; apply _.
      - unfold sort at 1. rewrite merge_sort_Permutation, Hkeys.
        unfold L, sort. by rewrite merge_sort_Permutation. }
    etrans; [|symmetry; exact Hout]. apply foldl_obj_set_ext. intros k Hk.
    apply list_elem_of_filter in Hk as [Hown Hk].
    unfold sort in Hk. rewrite merge_sort_Permutation in Hk.
    apply obj_get_elem in Hk. rewrite Hget by done.
    rewrite Forall_forall in IH, Hwf. apply (IH _ Hk), (Hwf _ Hk).
Qed.

(** X11. Normalising is idempotent: on a value whose objects have distinct
    keys, [stableSortKeys] applied to its own result changes nothing; hence
    the text [toPrettyJSON] gives for the normalised form of a JSON value is
    the text it gives for the value. *)
Theorem stableSortKeys_idempotent (v : JsonValue num) :
  well_formed v = true →
  stableSortKeys (stableSortKeys v) = stableSortKeys v ∧
  (is_json v = true →
   toPrettyJSON Number_toString isFinite (stableSortKeys v) =
   toPrettyJSON Number_toString isFinite v).
Proof.
  intros Hwf. pose proof (stableSortKeys_idem v Hwf) as Hidem. split; [done|].
  intros Hjson.
  destruct (toPrettyJSON_json Number_toString isFinite v Hjson) as [-> _].
  destruct (toPrettyJSON_json Number_toString isFinite (stableSortKeys v)) as [-> _];
    [by apply stableSortKeys_is_json|].
  by rewrite Hidem.
Qed.

(** *** Key order on values that do not serialise *)

Lemma has_bigint_arr xs :
  has_bigint (VArr xs) = false ↔ Forall (λ x, has_bigint x = false) xs.
Proof.
  cbn. induction xs as [|x xs IH]; [done|].
  cbn. rewrite orb_false_iff, IH, Forall_cons. done.
Qed.

Lemma has_bigint_obj ps :
  has_bigint (VObj ps) = false ↔ Forall (λ kv, has_bigint kv.2 = false) ps.
Proof.
  cbn. induction ps as [|[k x] ps IH]; [done|].
  cbn. rewrite orb_false_iff, IH, Forall_cons. done.
Qed.

Lemma stableSortKeys_no_bigint v :
  has_bigint v = false → has_bigint (stableSortKeys v) = false.
Proof.
  induction v as [v Hv|xs IH|ps IH] using JsonValue_induction; intros Hnone.
  - by destruct v.
  - apply has_bigint_arr in Hnone. cbn [stableSortKeys]. apply has_bigint_arr.
    apply Forall_fmap. by apply (Forall_mp _ _ _ IH).
  - apply has_bigint_obj in Hnone. rewrite stableSortKeys_obj. apply has_bigint_obj.
    apply (foldl_obj_set_Forall (λ x, has_bigint x = false)); [done|].
    intros k Hk. assert (k ∈ keys ps) as Hk'.
    { unfold sort in Hk. by rewrite merge_sort_Permutation in Hk. }
    apply obj_get_elem in Hk'. rewrite Forall_forall in IH, Hnone.
    apply (IH _ Hk'), (Hnone _ Hk').
Qed.

Lemma serialize_elements_throws (ser : JsonValue num → result (option string)) xs :
  Exists (λ x, ∃ e, ser x = Throw e) xs → ∃ e, serialize_elements ser xs = Throw e.
Proof.
  induction xs as [|x xs IH]; intros Hex; [by apply Exists_nil in Hex|].
  cbn. destruct (ser x) as [r|e] eqn:Hx; [|by eexists].
  apply Exists_cons in Hex as [[e He]|Hex]; [congruence|].
  destruct (IH Hex) as [e ->]. by eexists.
Qed.

Lemma serialize_members_throws (ser : JsonValue num → result (option string)) ps :
  Exists (λ kv, ∃ e, ser kv.2 = Throw e) ps → ∃ e, serialize_members ser ps = Throw e.
Proof.
  induction ps as [|[k x] ps IH]; intros Hex; [by apply Exists_nil in Hex|].
  cbn. destruct (ser x) as [r|e] eqn:Hx; [|by eexists].
  apply Exists_cons in Hex as [[e He]|Hex]; [cbn in He; congruence|].
  destruct (IH Hex) as [e ->]. by eexists.
Qed.

Lemma serialize_elements_returns (ser : JsonValue num → result (option string)) xs :
  Forall (λ x, ∃ r, ser x = Return r) xs → ∃ partial, serialize_elements ser xs = Return partial.
Proof.
  induction 1 as [|x xs [r Hx] _ [partial IH]]; [by eexists|].
  cbn. rewrite Hx. cbn. rewrite IH. by eexists.
Qed.

Lemma serialize_members_returns (ser : JsonValue num → result (option string)) ps :
  Forall (λ kv, ∃ r, ser kv.2 = Return r) ps → ∃ partial, serialize_members ser ps = Return partial.
Proof.
  induction 1 as [|[k x] ps [r Hx] _ [partial IH]]; [by eexists|].
  cbn in *. rewrite Hx. cbn. rewrite IH. by eexists.
Qed.

(** Serialising throws exactly on the values that hold a BigInt. *)
Lemma serialize_bigint indent v :
  (has_bigint v = true → ∃ e, serialize Number_toString isFinite indent v = Throw e) ∧
  (has_bigint v = false → ∃ r, serialize Number_toString isFinite indent v = Return r).
Proof.
  revert indent.
  induction v as [v Hv|xs IH|ps IH] using JsonValue_induction; intros indent.
  - destruct v; try done; split; intros; try done; by eexists.
  - split; intros Hb.
    + cbn [serialize]. destruct (serialize_elements_throws
        (serialize Number_toString isFinite (indent +:+ gap)) xs) as [e ->]; [|by eexists].
      cbn in Hb. apply existsb_exists in Hb as (x & Hin & Hx).
      apply Exists_exists. exists x. apply list_elem_of_In in Hin. split; [done|].
      rewrite Forall_forall in IH. by apply (IH x Hin).
    + apply has_bigint_arr in Hb. cbn [serialize].
      destruct (serialize_elements_returns
        (serialize Number_toString isFinite (indent +:+ gap)) xs) as [partial ->];
        [|by eexists].
      apply (Forall_mp (λ x, has_bigint x = false)); [|done].
      eapply Forall_impl; [exact IH|]. intros x Hx Hnone. by apply Hx.
  - split; intros Hb.
    + cbn [serialize]. destruct (serialize_members_throws
        (serialize Number_toString isFinite (indent +:+ gap)) ps) as [e ->]; [|by eexists].
      cbn in Hb. apply existsb_exists in Hb as (x & Hin & Hx).
      apply Exists_exists. exists x. apply list_elem_of_In in Hin. split; [done|].
      rewrite Forall_forall in IH. by apply (IH x Hin).
    + apply has_bigint_obj in Hb. cbn [serialize].
      destruct (serialize_members_returns
        (serialize Number_toString isFinite (indent +:+ gap)) ps) as [partial ->];
        [|by eexists].
      apply (Forall_mp (λ kv, has_bigint kv.2 = false)); [|done].
      eapply Forall_impl; [exact IH|]. intros x Hx Hnone. by apply Hx.
Qed.

(** When the key-sorted form does not serialise, neither does the value. *)
Lemma JSON_stringify_sorted_throws v :
  (∃ e, JSON_stringify Number_toString isFinite (stableSortKeys v) = Throw e) →
  ∃ e, JSON_stringify Number_toString isFinite v = Throw e.
Proof.
  intros [e He]. unfold JSON_stringify in *.
  destruct (has_bigint v) eqn:Hb; [by apply serialize_bigint|].
  apply stableSortKeys_no_bigint in Hb.
  apply (serialize_bigint "") in Hb as [r Hr]. congruence.
Qed.

Lemma ToString_same v w :
  same_up_to_key_order v w → ToString Number_toString v = ToString Number_toString w.
Proof.
  revert w. induction v as [v Hv|xs IH|ps IH] using JsonValue_induction; intros w Hsame.
  - inversion Hsame; subst; by try done.
  - inversion Hsame as [|xs' ys Hall|]; subst; [done|].
    cbn [ToString]. f_equal. clear Hsame.
    induction Hall as [|x y xs ys Hxy _ IHall]; [done|].
    apply Forall_cons in IH as [Hx Hxs]. cbn [ToString_elements].
    rewrite (IHall Hxs). f_equal.
    inversion Hxy; subst; [done|..]; by apply Hx.
  - inversion Hsame as [| |ps' qs Hnd1 Hnd2 Hkeys Hvals]; subst; [done|].
    cbn [ToString]. repeat case_decide; try done.
    + by rewrite Hkeys in *.
    + by rewrite <-Hkeys in *.
Qed.

Lemma toPrettyJSON_same (v w : JsonValue num) :
  same_up_to_key_order v w →
  toPrettyJSON Number_toString isFinite v = toPrettyJSON Number_toString isFinite w.
Proof.
  intros Hsame.
  pose proof (stableSortKeys_same v w Hsame) as Hsorted.
  pose proof (ToString_same v w Hsame) as Hstr.
  assert (∀ x : JsonValue num, x ≠ VUndefined →
    toPrettyJSON Number_toString isFinite x =
    try_catch (JSON_stringify Number_toString isFinite (stableSortKeys x))
      (str ←ᵣ String_ Number_toString x; Return (Some str))) as Htp.
  { intros x Hx.
    assert (toPrettyJSON Number_toString isFinite x =
      try_catch (JSON_stringify Number_toString isFinite (stableSortKeys x))
        (try_catch (JSON_stringify Number_toString isFinite x)
           (str ←ᵣ String_ Number_toString x; Return (Some str)))) as ->
      by (by destruct x).
    destruct (JSON_stringify _ _ (stableSortKeys x)) as [r|e] eqn:Hs; [done|].
    destruct (JSON_stringify_sorted_throws x) as [e' ->]; [|done].
    exists e. by rewrite Hs. }
  inversion Hsame as [x Hleaf| |]; subst; [done|..];
    rewrite !Htp by done; rewrite Hsorted; unfold String_; by rewrite Hstr.
Qed.

(** X12. Key-order invariance holds on every value, not only on JSON
    values: two values equal up to the order of keys get the same outcome
    from [toPrettyJSON], the same text, [undefined] for both, or the same
    exception, also when a BigInt inside them sends it to its fallbacks. *)
Theorem toPrettyJSON_key_order_any (v w : JsonValue num) :
  same_up_to_key_order v w →
  toPrettyJSON Number_toString isFinite v = toPrettyJSON Number_toString isFinite w.
Proof. apply toPrettyJSON_same. Qed.
End JsonMore.

(** * Further properties of the diff view *)

Section ViewMore.
Import Diff Split Json View Further.
Context {num : Type}.
Variable Number_toString : num → string.
Variable isFinite : num → bool.

Local Abbreviation toPrettyJSON := (Json.toPrettyJSON Number_toString isFinite).
Local Abbreviation DiffView := (View.DiffView Number_toString isFinite).

Lemma toPrettyJSON_attr (v : JsonValue num) :
  json_or_undefined v → ∃ text, toPrettyJSON v = Return (Some text).
Proof. intros [->|Hjson]; [by eexists|]. by apply toPrettyJSON_json. Qed.

(** X13. On two span attributes, each an absent field or a JSON value, the
    diff view throws nothing: it renders, under the title it was given, and
    its summary reads "no changes" exactly when [toPrettyJSON] gives the two
    sides the same text. *)
Theorem DiffView_renders (title : string) (left right : JsonValue num)
    (mode : option Mode) :
  json_or_undefined left → json_or_undefined right →
  ∃ leftText rightText body,
    toPrettyJSON left = Return (Some leftText) ∧
    toPrettyJSON right = Return (Some rightText) ∧
    DiffView title left right mode =
      Return (mkRendered title
                (if decide (leftText = rightText) then "no changes" else "changes") body).
Proof.
  intros [leftText Hl]%toPrettyJSON_attr [rightText Hr]%toPrettyJSON_attr.
  exists leftText, rightText. eexists. split_and!; [done..|].
  unfold View.DiffView. rewrite Hl, Hr. cbn [bind computeOps_of]. f_equal.
  destruct (hasChanges (computeOps leftText rightText)) eqn:Hch.
  - rewrite decide_False; [done|]. intros Heq%hasChanges_computeOps. congruence.
  - apply hasChanges_computeOps in Hch. by rewrite decide_True.
Qed.

Lemma foldl_push_contexts rows ls :
  foldl push_op rows (all_context ls) =
  rows ++ ((λ l, Row.mk RContext (Some l) (Some l)) <$> ls).
Proof.
  revert rows. induction ls as [|l ls IH]; intros rows; [by rewrite app_nil_r|].
  cbn. unfold all_context in IH. rewrite IH. by rewrite <-app_assoc.
Qed.

(** X14. Reordering keys is not reported as a change: when the right value
    is the left JSON value up to the order of keys, the diff view reads
    "no changes" and shows the lines of the one normalised text, each once,
    as context on both sides. *)
Theorem DiffView_key_order (title : string) (left right : JsonValue num)
    (mode : option Mode) :
  is_json left = true → same_up_to_key_order left right →
  ∃ text,
    toPrettyJSON left = Return (Some text) ∧
    DiffView title left right mode =
      Return (mkRendered title "no changes"
                match default ModeSplit mode with
                | ModeSplit =>
                    SplitBody (Some <$> Lines.split text) (Some <$> Lines.split text)
                | ModeUnified => UnifiedBody ((λ l, "  " +:+ l) <$> Lines.split text)
                end).
Proof.
  intros Hjson Hsame.
  destruct (toPrettyJSON_json Number_toString isFinite left Hjson) as [Heq [text Hl]].
  assert (toPrettyJSON right = Return (Some text)) as Hr.
  { by rewrite <-(toPrettyJSON_same Number_toString isFinite left right Hsame). }
  exists text. split; [done|].
  unfold View.DiffView. rewrite Hl, Hr. cbn [bind computeOps_of].
  rewrite computeOps_refl, hasChanges_all_context. do 2 f_equal.
  unfold opsToSplitRows. rewrite foldl_push_contexts, app_nil_l.
  destruct (default ModeSplit mode).
  - by rewrite <-!list_fmap_compose.
  - unfold all_context. by rewrite <-list_fmap_compose.
Qed.
End ViewMore.

(** * Further properties of the value tree renderer *)

Section TreeMore.
Import Json Tree Further.
Context {num : Type}.
Variable Number_toString : num → string.
Variable JSON_parse : string → result (JsonValue num).
Implicit Types (v : JsonValue num) (xs : list (JsonValue num))
  (props : list (string * JsonValue num)) (dcd : Z).

Local Abbreviation JsonNode := (Tree.JsonNode Number_toString).

Lemma mounted_path_JsonNode name v depth path dcd :
  mounted_path (JsonNode name v depth path dcd) = path.
Proof. by destruct v. Qed.

Lemma child_path_inj path : Inj (=) (=) (λ k, path +:+ "." +:+ k).
Proof. intros k1 k2 Heq. by do 2 apply (inj (String.app _)) in Heq. Qed.

Lemma array_children_paths (node : nat → JsonValue num → Mounted) (key : nat → string) i xs :
  (∀ j v, mounted_path (node j v) = key j) →
  mounted_path <$> array_children node i xs = key <$> seq i (length xs).
Proof.
  intros Hnode. revert i. induction xs as [|x xs IH]; intros i; [done|].
  cbn. by rewrite Hnode, IH.
Qed.

Lemma array_children_distinct xs depth path dcd :
  NoDup (mounted_path <$>
    array_children (λ i v, JsonNode None v depth (path +:+ "." +:+ pretty i)
                             dcd) 0 xs).
Proof.
  rewrite (array_children_paths _ (λ i, path +:+ "." +:+ pretty i))
    by (intros; apply mounted_path_JsonNode).
  apply NoDup_fmap_2_strong; [|apply NoDup_seq].
  intros i j _ _ Heq. apply child_path_inj in Heq. by apply (inj pretty) in Heq.
Qed.

Lemma object_children_distinct props depth path dcd :
  NoDup (keys props) →
  NoDup (mounted_path <$>
    ((λ kv, JsonNode (Some kv.1) kv.2 depth (path +:+ "." +:+ kv.1)
              dcd) <$> props)).
Proof.
  intros Hnd.
  assert (mounted_path <$>
    ((λ kv, JsonNode (Some kv.1) kv.2 depth (path +:+ "." +:+ kv.1) dcd) <$> props)
    = (λ k, path +:+ "." +:+ k) <$> keys props) as ->.
  { clear Hnd. induction props as [|[k x] props IH]; [done|].
    cbn. rewrite mounted_path_JsonNode. f_equal. exact IH. }
  apply NoDup_fmap_2; [apply child_path_inj|done].
Qed.

Lemma JsonNode_siblings v name (level : nat) depth path dcd :
  well_formed v = true →
  Forall (λ lt, siblings_distinct lt.2)
    (mounted_nodes level (JsonNode name v depth path dcd)).
Proof.
  revert name level depth path dcd.
  induction v as [v Hv|xs IH|props IH] using JsonValue_induction;
    intros name level depth path dcd Hwf.
  - destruct v; try done; by repeat constructor.
  - apply well_formed_arr in Hwf.
    assert (Forall (λ x, ∀ name level depth path dcd,
      Forall (λ lt, siblings_distinct lt.2)
        (mounted_nodes level (JsonNode name x depth path dcd))) xs) as Hall.
    { apply (Forall_mp (λ x, well_formed x = true)); [|done].
      eapply Forall_impl; [exact IH|]. cbn. auto. }
    cbn [Tree.JsonNode mounted_nodes mounted_view].
    case_bool_decide as Hlen; [|by repeat constructor].
    constructor; [apply array_children_distinct|].
    apply Forall_bind. generalize 0 as i. clear IH Hwf Hlen.
    induction Hall as [|x xs Hx _ IHxs]; intros i; [constructor|].
    cbn [array_children]. constructor; [apply Hx|apply IHxs].
  - apply well_formed_obj in Hwf as [Hnd Hwf].
    assert (Forall (λ kv, ∀ name level depth path dcd,
      Forall (λ lt, siblings_distinct lt.2)
        (mounted_nodes level (JsonNode name kv.2 depth path dcd))) props) as Hall.
    { apply (Forall_mp (λ kv, well_formed kv.2 = true)); [|done].
      eapply Forall_impl; [exact IH|]. cbn. auto. }
    cbn [Tree.JsonNode mounted_nodes mounted_view].
    case_bool_decide as Hlen; [|by repeat constructor].
    constructor; [by apply object_children_distinct|].
    apply Forall_bind, Forall_fmap. clear IH Hwf Hlen Hnd.
    induction Hall as [|[k x] ps Hx _ IHps]; [constructor|].
    constructor; [apply Hx|apply IHps].
Qed.

(** X15. The children of every node of the tree get pairwise distinct keys
    (the child's path), provided the keys of each object are distinct, as
    they are in any parsed value; the elements of an array always do. *)
Theorem JsonView_sibling_keys (value : JsonValue num)
    (defaultCollapsedDepth : option Z) :
  well_formed (tryParse JSON_parse value) = true →
  Forall (λ lt, siblings_distinct lt.2)
    (mounted_nodes 0 (JsonView Number_toString JSON_parse value defaultCollapsedDepth)).
Proof. intros Hwf. unfold JsonView. by apply JsonNode_siblings. Qed.

Lemma length_bind_mounted (level : nat) (children : list Mounted) (counts : list nat) :
  Forall2 (λ c n, length (mounted_nodes level c) = n) children counts →
  length (children ≫= mounted_nodes level) = sum_list counts.
Proof.
  induction 1 as [|c n children counts Hc _ IH]; [done|].
  rewrite bind_cons, length_app, Hc, IH. done.
Qed.

Lemma JsonNode_count v name (level : nat) depth path dcd :
  length (mounted_nodes level (JsonNode name v depth path dcd)) = value_count v.
Proof.
  revert name level depth path dcd.
  induction v as [v Hv|xs IH|props IH] using JsonValue_induction;
    intros name level depth path dcd.
  - by destruct v.
  - cbn [Tree.JsonNode mounted_nodes mounted_view value_count].
    case_bool_decide as Hlen; [|by destruct xs; [|cbn in Hlen; lia]].
    cbn [length]. f_equal. apply length_bind_mounted. generalize 0 as i.
    clear Hlen. induction IH as [|x xs Hx _ IHxs]; intros i; [constructor|].
    cbn [array_children]. rewrite fmap_cons. constructor; [apply Hx|apply IHxs].
  - cbn [Tree.JsonNode mounted_nodes mounted_view value_count].
    case_bool_decide as Hlen; [|by destruct props; [|cbn in Hlen; lia]].
    cbn [length]. f_equal. apply length_bind_mounted.
    clear Hlen. induction IH as [|[k x] ps Hx _ IHps]; [constructor|].
    rewrite !fmap_cons. constructor; [apply Hx|apply IHps].
Qed.

(** X16. The tree mounts one node for every value nested in the data,
    whatever is collapsed: the number of mounted nodes is the number of
    values in the (parsed) value, the root included. *)
Theorem JsonView_mounts_all (value : JsonValue num)
    (defaultCollapsedDepth : option Z) :
  length (mounted_nodes 0 (JsonView Number_toString JSON_parse value defaultCollapsedDepth)) =
  value_count (tryParse JSON_parse value).
Proof. unfold JsonView. apply JsonNode_count. Qed.
End TreeMore.

(** * The lines of the normalised text *)

Section JsonLines.
Import Json Further.
Context {num : Type}.
Variable Number_toString : num → string.
Variable isFinite : num → bool.
Hypothesis Number_one_line : ∀ x, newlines (Number_toString x) = 0.
Implicit Types (v : JsonValue num) (xs : list (JsonValue num))
  (ps : list (string * JsonValue num)).

Lemma length_split s : length (Lines.split s) = S (newlines s).
Proof.
  induction s as [|c s IH]; [done|].
  cbn [Lines.split newlines]. case_decide; [cbn; by rewrite IH|].
  pose proof (split_nonempty s). by destruct (Lines.split s).
Qed.

Lemma newlines_app s1 s2 : newlines (s1 +:+ s2) = newlines s1 + newlines s2.
Proof.
  induction s1 as [|c s1 IH]; [done|].
  change (String c s1 +:+ s2) with (String c (s1 +:+ s2)).
  cbn [newlines]. rewrite IH. lia.
Qed.

Lemma newlines_concat sep parts :
  newlines (String.concat sep parts) =
  sum_list (newlines <$> parts) + pred (length parts) * newlines sep.
Proof.
  induction parts as [|p parts IH]; [done|].
  destruct parts as [|p' parts]; [cbn; lia|].
  rewrite concat_cons by done. rewrite !newlines_app, IH. cbn. lia.
Qed.

Lemma newlines_quote_char c : newlines (quote_char c) = 0.
Proof.
  destruct c as [[] [] [] [] [] [] [] []]; vm_compute; reflexivity.
Qed.

Lemma newlines_quote_chars s : newlines (quote_chars s) = 0.
Proof.
  induction s as [|c s IH]; [done|].
  cbn [quote_chars]. by rewrite newlines_app, newlines_quote_char, IH.
Qed.

(** A quoted string is on one line, whatever it holds. *)
Lemma newlines_QuoteJSONString s : newlines (QuoteJSONString s) = 0.
Proof.
  unfold QuoteJSONString. cbn [newlines]. rewrite decide_False by done.
  by rewrite newlines_app, newlines_quote_chars.
Qed.

Lemma sum_list_S_newlines (l : list string) :
  sum_list ((λ p, S (newlines p)) <$> l) = sum_list (newlines <$> l) + length l.
Proof. induction l as [|p l IH]; [done|]. cbn in *. lia. Qed.

Lemma newlines_wrap opening closing stepback indent partial :
  newlines opening = 0 → newlines closing = 0 →
  newlines stepback = 0 → newlines indent = 0 →
  S (newlines (wrap opening closing stepback indent partial)) =
  match partial with
  | [] => 1
  | _ => 2 + sum_list ((λ p, S (newlines p)) <$> partial)
  end.
Proof.
  intros Ho Hc Hs Hi. unfold wrap. destruct partial as [|p partial].
  { rewrite newlines_app. lia. }
  rewrite !newlines_app, newlines_concat, !newlines_app, Ho, Hc, Hs, Hi.
  rewrite sum_list_S_newlines.
  change (newlines nl) with 1. change (newlines ",") with 0.
  cbn [length pred]. lia.
Qed.

Lemma serialize_elements_lines (ser : JsonValue num → result (option string)) xs :
  Forall (λ x, ∃ text, ser x = Return (Some text) ∧ S (newlines text) = line_count x) xs →
  ∃ partial, serialize_elements ser xs = Return partial ∧
    (λ p, S (newlines p)) <$> partial = line_count <$> xs.
Proof.
  induction 1 as [|x xs (text & Hx & Hlines) _ (partial & IH & IHlines)]; [by eexists|].
  cbn. rewrite Hx. cbn. rewrite IH. eexists. split; [done|].
  cbn. by rewrite Hlines, IHlines.
Qed.

Lemma serialize_members_lines (ser : JsonValue num → result (option string)) ps :
  Forall (λ kv, ∃ text, ser kv.2 = Return (Some text) ∧
                  S (newlines text) = line_count kv.2) ps →
  ∃ partial, serialize_members ser ps = Return partial ∧
    (λ p, S (newlines p)) <$> partial = (λ kv, line_count kv.2) <$> ps.
Proof.
  induction 1 as [|[k x] ps (text & Hx & Hlines) _ (partial & IH & IHlines)]; [by eexists|].
  cbn in *. rewrite Hx. cbn. rewrite IH. eexists. split; [done|].
  cbn. rewrite <- Hlines, IHlines. do 2 f_equal.
  by rewrite !newlines_app, newlines_QuoteJSONString.
Qed.

Lemma serialize_lines indent v :
  newlines indent = 0 → is_json v = true →
  ∃ text, serialize Number_toString isFinite indent v = Return (Some text) ∧
    S (newlines text) = line_count v.
Proof.
  revert indent.
  induction v as [v Hv|xs IH|ps IH] using JsonValue_induction; intros indent Hindent Hjson.
  - destruct v as [| |flag|x|s| | | |]; try done; eexists; (split; [done|]).
    + by vm_compute.
    + by destruct flag; vm_compute.
    + destruct (isFinite x); [by rewrite Number_one_line|by vm_compute].
    + by rewrite newlines_QuoteJSONString.
  - apply is_json_arr in Hjson. cbn [serialize].
    assert (newlines (indent +:+ gap) = 0) as Hindent'
      by (by rewrite newlines_app, Hindent).
    destruct (serialize_elements_lines
      (serialize Number_toString isFinite (indent +:+ gap)) xs) as (partial & -> & Hlines).
    { apply (Forall_mp (λ x, is_json x = true)); [|done].
      eapply Forall_impl; [exact IH|]. cbn. auto. }
    eexists. split; [done|]. rewrite newlines_wrap by done.
    rewrite Hlines. destruct partial, xs; done.
  - apply is_json_obj in Hjson. cbn [serialize].
    assert (newlines (indent +:+ gap) = 0) as Hindent'
      by (by rewrite newlines_app, Hindent).
    destruct (serialize_members_lines
      (serialize Number_toString isFinite (indent +:+ gap)) ps) as (partial & -> & Hlines).
    { apply (Forall_mp (λ kv, is_json kv.2 = true)); [|done].
      eapply Forall_impl; [exact IH|]. cbn. auto. }
    eexists. split; [done|]. rewrite newlines_wrap by done.
    rewrite Hlines. destruct partial, ps; done.
Qed.

(** X17. One logical element per line. When numbers print on one line, the
    normalised text of a JSON value has one line for every leaf and every
    empty container of its key-sorted form, and two more, the opening and
    the closing bracket, for every other container; what the strings and
    keys hold never adds a line. *)
Theorem toPrettyJSON_lines (v : JsonValue num) :
  is_json v = true →
  ∃ text, toPrettyJSON Number_toString isFinite v = Return (Some text) ∧
    length (Lines.split text) = line_count (stableSortKeys v).
Proof.
  intros Hjson.
  destruct (toPrettyJSON_json Number_toString isFinite v Hjson) as [-> _].
  destruct (serialize_lines "" (stableSortKeys v)) as (text & Htext & Hlines);
    [done|by apply stableSortKeys_is_json|].
  exists text. split; [done|]. by rewrite length_split.
Qed.
End JsonLines.

Lemma newlines_pretty_N_go x s : Further.newlines (pretty_N_go x s) = Further.newlines s.
Proof.
  revert s. induction (N.lt_wf_0 x) as [x _ IH]; intros s.
  destruct (decide (x = 0)%N) as [->|Hx]; [done|].
  rewrite pretty_N_go_step by lia. rewrite IH by (apply N.div_lt; lia).
  cbn [Further.newlines]. rewrite decide_False; [done|].
  unfold pretty_N_char. by repeat case_match.
Qed.

(** An integer prints on one line. *)
Lemma newlines_pretty_Z (z : Z) : Further.newlines (IntegerNumbers.Number_toString z) = 0.
Proof.
  unfold IntegerNumbers.Number_toString, pretty, pretty_Z.
  assert (∀ p, Further.newlines (pretty (Npos p)) = 0) as Hpos.
  { intros p. unfold pretty, pretty_N. rewrite decide_False by done.
    by rewrite newlines_pretty_N_go. }
  destruct z as [|p|p]; [done|apply Hpos|].
  rewrite newlines_app. etrans; [|exact (Hpos p)]. done.
Qed.

(** * The unified view *)

Section UnifiedMore.
Import Diff Split.

Lemma unified_line_inj o1 o2 :
  context_ok o1 → context_ok o2 → unified_line o1 = unified_line o2 → o1 = o2.
Proof. destruct o1, o2; cbn; intros; simplify_eq; done. Qed.

Lemma unified_lines_inj ops1 ops2 :
  Forall context_ok ops1 → Forall context_ok ops2 →
  unified_line <$> ops1 = unified_line <$> ops2 → ops1 = ops2.
Proof.
  intros H1. revert ops2.
  induction H1 as [|o1 ops1 Ho1 _ IH]; intros [|o2 ops2] H2 Heq; try done.
  apply Forall_cons in H2 as [Ho2 H2]. rewrite !fmap_cons in Heq.
  injection Heq as Hline Hrest. f_equal; [by apply unified_line_inj|by apply IH].
Qed.

(** X18. The unified view loses nothing: two pairs of texts whose diffs show
    the same lines in the unified view are the same pair of texts. *)
Theorem unified_view_injective leftText1 rightText1 leftText2 rightText2 :
  unified_line <$> computeOps leftText1 rightText1 =
  unified_line <$> computeOps leftText2 rightText2 →
  leftText1 = leftText2 ∧ rightText1 = rightText2.
Proof.
  intros Heq.
  destruct (computeOps_script leftText1 rightText1) as (Hl1 & Hr1 & Hc1).
  destruct (computeOps_script leftText2 rightText2) as (Hl2 & Hr2 & Hc2).
  apply unified_lines_inj in Heq; [|done..].
  split; apply split_inj; congruence.
Qed.

Lemma unified_view_injective_witness :
  "a" +:+ Json.nl +:+ "b" = "a" +:+ Json.nl +:+ "b" ∧ "a" = "a".
Proof. apply unified_view_injective. reflexivity. Defined.
End UnifiedMore.

(** * The further properties at concrete inputs *)

Section Instances.
Import Json View Tree Further.

Local Abbreviation NT := IntegerNumbers.Number_toString.
Local Abbreviation iF := IntegerNumbers.isFinite.

(** X10, on an object with the keys [b], [__proto__] and [a]. *)
Lemma stableSortKeys_properties_witness :
  ∃ out,
    stableSortKeys (VObj [("b", VNum 1%Z); ("__proto__", VNull); ("a", VNum 2%Z)])
      = VObj out ∧
    NoDup (keys out) ∧
    keys out ≡ₚ filter (λ k, k ≠ "__proto__")
                  (keys [("b", VNum 1%Z); ("__proto__", VNull); ("a", VNum 2%Z)]) ∧
    (∀ k, k ≠ "__proto__" →
       obj_get out k =
       stableSortKeys
         (obj_get [("b", VNum 1%Z); ("__proto__", VNull); ("a", VNum 2%Z)] k)) ∧
    obj_get out "__proto__" = VUndefined.
Proof.
  apply (stableSortKeys_properties
           [("b", VNum 1%Z); ("__proto__", VNull); ("a", VNum 2%Z)]).
  compute_done.
Defined.

(** X11, on an object nested in an array nested in an object. *)
Lemma stableSortKeys_idempotent_witness :
  let v := VObj [("b", VArr [VObj [("z", VNull); ("y", VNum 1%Z)]]); ("a", VNum 2%Z)] in
  stableSortKeys (stableSortKeys v) = stableSortKeys v ∧
  (is_json v = true →
   toPrettyJSON NT iF (stableSortKeys v) = toPrettyJSON NT iF v).
Proof.
  apply (stableSortKeys_idempotent NT iF
           (VObj [("b", VArr [VObj [("z", VNull); ("y", VNum 1%Z)]]); ("a", VNum 2%Z)])).
  reflexivity.
Defined.

(** X12, at two orderings of an object that holds a BigInt. *)
Lemma toPrettyJSON_key_order_any_witness :
  toPrettyJSON NT iF (VObj [("b", VBigInt 7); ("a", VNum 1%Z)]) =
  toPrettyJSON NT iF (VObj [("a", VNum 1%Z); ("b", VBigInt 7)]).
Proof.
  apply (toPrettyJSON_key_order_any NT iF).
  apply same_obj.
  - compute_done.
  - compute_done.
  - apply perm_swap.
  - intros k Hk. cbn in Hk.
    apply elem_of_cons in Hk as [->|Hk]; [by apply same_leaf|].
    apply elem_of_cons in Hk as [->|Hk]; [by apply same_leaf|].
    by apply elem_of_nil in Hk.
Defined.

(** X13, with an absent field on the left and an object on the right. *)
Lemma DiffView_renders_witness :
  ∃ leftText rightText body,
    toPrettyJSON NT iF VUndefined = Return (Some leftText) ∧
    toPrettyJSON NT iF (VObj [("x", VNum 1%Z)]) = Return (Some rightText) ∧
    DiffView NT iF "input" VUndefined (VObj [("x", VNum 1%Z)]) None =
      Return (mkRendered "input"
                (if decide (leftText = rightText) then "no changes" else "changes") body).
Proof.
  apply (DiffView_renders NT iF "input" VUndefined (VObj [("x", VNum 1%Z)]) None).
  - by left.
  - right. reflexivity.
Defined.

(** X14, at two orderings of an object with the keys [a] and [b], in the
    unified view. *)
Lemma DiffView_key_order_witness :
  ∃ text,
    toPrettyJSON NT iF (VObj [("b", VNum 2%Z); ("a", VNum 1%Z)]) = Return (Some text) ∧
    DiffView NT iF "output" (VObj [("b", VNum 2%Z); ("a", VNum 1%Z)])
        (VObj [("a", VNum 1%Z); ("b", VNum 2%Z)]) (Some ModeUnified) =
      Return (mkRendered "output" "no changes"
                (UnifiedBody ((λ l, "  " +:+ l) <$> Lines.split text))).
Proof.
  apply (DiffView_key_order NT iF "output" (VObj [("b", VNum 2%Z); ("a", VNum 1%Z)])
           (VObj [("a", VNum 1%Z); ("b", VNum 2%Z)]) (Some ModeUnified)).
  - reflexivity.
  - apply same_obj.
    + compute_done.
    + compute_done.
    + apply perm_swap.
    + intros k Hk. cbn in Hk.
      apply elem_of_cons in Hk as [->|Hk]; [by apply same_leaf|].
      apply elem_of_cons in Hk as [->|Hk]; [by apply same_leaf|].
      by apply elem_of_nil in Hk.
Defined.

(** X15, on an object that holds an array, with a parser that is never
    asked. *)
Lemma JsonView_sibling_keys_witness :
  Forall (λ lt, siblings_distinct lt.2)
    (mounted_nodes 0
       (JsonView NT (λ _, Throw SyntaxError)
          (VObj [("a", VArr [VNum 1%Z; VNum 2%Z]); ("b", VNull)]) None)).
Proof.
  apply (JsonView_sibling_keys NT (λ _, Throw SyntaxError)
           (VObj [("a", VArr [VNum 1%Z; VNum 2%Z]); ("b", VNull)]) None).
  reflexivity.
Defined.

(** X17, on an object that holds an array with a string of two lines and an
    empty object: seven lines. *)
Lemma toPrettyJSON_lines_witness :
  ∃ text,
    toPrettyJSON NT iF
      (VObj [("b", VArr [VNum 1%Z; VStr ("x" +:+ nl +:+ "y")]); ("a", VObj [])])
      = Return (Some text) ∧
    length (Lines.split text) =
    line_count
      (stableSortKeys
         (VObj [("b", VArr [VNum 1%Z; VStr ("x" +:+ nl +:+ "y")]); ("a", VObj [])])).
Proof.
  apply (toPrettyJSON_lines NT iF newlines_pretty_Z
           (VObj [("b", VArr [VNum 1%Z; VStr ("x" +:+ nl +:+ "y")]); ("a", VObj [])])).
  reflexivity.
Defined.
End Instances.
